(** * porter: pkg/bgp/config/serve.go

    A shallow embedding of the configuration reload loop
    ([ReadConfigfileServe]) and of the diff functions
    ([UpdatePeerGroupConfig], [UpdateNeighborConfig],
    [CheckPolicyDifference]) of the BGP configuration package, with the
    properties its specification states about them.  Definitions come
    first, properties after them. *)

From Stdlib Require Import ZArith List String Bool Lia Permutation.
Import ListNotations.

Local Open Scope Z_scope.

(** ** The configuration schema

    [serve.go] declares [BgpConfigSet] only; the entity types it mentions
    live in the generated type file of the package. *)

(** Modelled from the spec: the declarations of [Global], [Neighbor],
    [PeerGroup], ... and their [Equal] methods are not part of [serve.go].
    The spec gives a PeerGroup a name ([n.Config.PeerGroupName] in the
    source) and a Neighbor a peer address as identity key, and gives
    PeerGroup, Neighbor, DefinedSets and PolicyDefinition a deep-equality
    predicate.  Everything else about these types is left open. *)
Class Schema : Type := {
  Global : Type;
  Neighbor : Type;
  PeerGroup : Type;
  RpkiServer : Type;
  BmpServer : Type;
  Vrf : Type;
  Mrt : Type;
  Collector : Type;
  DefinedSets : Type;
  PolicyDefinition : Type;
  DynamicNeighbor : Type;
  PorterConfig : Type;
  PeerGroupName : PeerGroup -> string;
  NeighborAddress : Neighbor -> string;
  PeerGroup_Equal : PeerGroup -> PeerGroup -> bool;
  Neighbor_Equal : Neighbor -> Neighbor -> bool;
  DefinedSets_Equal : DefinedSets -> DefinedSets -> bool;
  PolicyDefinition_Equal : PolicyDefinition -> PolicyDefinition -> bool
}.

(** Indexing a slice, [b[idx]]: Go panics when [idx] is out of range. *)
Definition index {A : Type} (b : list A) (idx : Z) : option A :=
  if idx <? 0 then None else nth_error b (Z.to_nat idx).

Section Snapshot.
Context {schema : Schema}.

(** A field that bears the name of its type carries a trailing
    underscore here. *)
Record BgpConfigSet : Type := {
  Global_ : Global;
  Neighbors : list Neighbor;
  PeerGroups : list PeerGroup;
  RpkiServers : list RpkiServer;
  BmpServers : list BmpServer;
  Vrfs : list Vrf;
  MrtDump : list Mrt;
  Collector_ : Collector;
  DefinedSets_ : DefinedSets;
  PolicyDefinitions : list PolicyDefinition;
  DynamicNeighbors : list DynamicNeighbor;
  PorterConfig_ : PorterConfig
}.

Record RoutingPolicy : Type := {
  rpDefinedSets : DefinedSets;
  rpPolicyDefinitions : list PolicyDefinition
}.

Definition ConfigSetToRoutingPolicy (c : BgpConfigSet) : RoutingPolicy :=
  {| rpDefinedSets := DefinedSets_ c;
     rpPolicyDefinitions := PolicyDefinitions c |}.

(** *** Lookup helpers *)

(** Modelled from the spec: [existPeerGroup] is not part of [serve.go].
    The spec looks a PeerGroup up by name in the other snapshot; the
    source uses the result as an index into the slice and tests it
    against 0, so the helper returns the position of the first entry
    with the given name, and a negative number when there is none. *)
Fixpoint existPeerGroup_from (i : Z) (n : string) (b : list PeerGroup) : Z :=
  match b with
  | [] => -1
  | nb :: rest =>
      if String.eqb (PeerGroupName nb) n then i
      else existPeerGroup_from (i + 1) n rest
  end.

Definition existPeerGroup (n : string) (b : list PeerGroup) : Z :=
  existPeerGroup_from 0 n b.

(** Modelled from the spec: [inSlice] is not part of [serve.go].  The
    spec keys Neighbors by peer address, so the helper returns the
    position of the first entry with the address of [n], and a negative
    number when there is none. *)
Fixpoint inSlice_from (i : Z) (n : Neighbor) (b : list Neighbor) : Z :=
  match b with
  | [] => -1
  | nb :: rest =>
      if String.eqb (NeighborAddress nb) (NeighborAddress n) then i
      else inSlice_from (i + 1) n rest
  end.

Definition inSlice (n : Neighbor) (b : list Neighbor) : Z :=
  inSlice_from 0 n b.

(** *** UpdatePeerGroupConfig *)

(** The first [for ... range newC.PeerGroups]: [acc] carries
    [(addedPg, updatedPg)]; [None] is the index-out-of-range panic. *)
Fixpoint rangeNewPeerGroups (curC : BgpConfigSet) (l : list PeerGroup)
    (acc : list PeerGroup * list PeerGroup)
    : option (list PeerGroup * list PeerGroup) :=
  match l with
  | [] => Some acc
  | n :: rest =>
      let '(addedPg, updatedPg) := acc in
      let idx := existPeerGroup (PeerGroupName n) (PeerGroups curC) in
      if idx <? 0 then
        rangeNewPeerGroups curC rest (addedPg ++ [n], updatedPg)
      else
        match index (PeerGroups curC) idx with
        | None => None
        | Some o =>
            if negb (PeerGroup_Equal n o) then
              rangeNewPeerGroups curC rest (addedPg, updatedPg ++ [n])
            else rangeNewPeerGroups curC rest (addedPg, updatedPg)
        end
  end.

(** The second [for ... range curC.PeerGroups]. *)
Fixpoint rangeCurPeerGroups (newC : BgpConfigSet) (l : list PeerGroup)
    (deletedPg : list PeerGroup) : list PeerGroup :=
  match l with
  | [] => deletedPg
  | n :: rest =>
      if existPeerGroup (PeerGroupName n) (PeerGroups newC) <? 0 then
        rangeCurPeerGroups newC rest (deletedPg ++ [n])
      else rangeCurPeerGroups newC rest deletedPg
  end.

(** Returns [(addedPg, deletedPg, updatedPg)].  The two [Debugf] calls of
    the update branch write to the log only and are left out. *)
Definition UpdatePeerGroupConfig (curC newC : BgpConfigSet)
    : option (list PeerGroup * list PeerGroup * list PeerGroup) :=
  match rangeNewPeerGroups curC (PeerGroups newC) ([], []) with
  | None => None
  | Some (addedPg, updatedPg) =>
      let deletedPg := rangeCurPeerGroups newC (PeerGroups curC) [] in
      Some (addedPg, deletedPg, updatedPg)
  end.

(** *** UpdateNeighborConfig *)

Fixpoint rangeNewNeighbors (curC : BgpConfigSet) (l : list Neighbor)
    (acc : list Neighbor * list Neighbor)
    : option (list Neighbor * list Neighbor) :=
  match l with
  | [] => Some acc
  | n :: rest =>
      let '(added, updated) := acc in
      let idx := inSlice n (Neighbors curC) in
      if idx <? 0 then
        rangeNewNeighbors curC rest (added ++ [n], updated)
      else
        match index (Neighbors curC) idx with
        | None => None
        | Some o =>
            if negb (Neighbor_Equal n o) then
              rangeNewNeighbors curC rest (added, updated ++ [n])
            else rangeNewNeighbors curC rest (added, updated)
        end
  end.

Fixpoint rangeCurNeighbors (newC : BgpConfigSet) (l : list Neighbor)
    (deleted : list Neighbor) : list Neighbor :=
  match l with
  | [] => deleted
  | n :: rest =>
      if inSlice n (Neighbors newC) <? 0 then
        rangeCurNeighbors newC rest (deleted ++ [n])
      else rangeCurNeighbors newC rest deleted
  end.

(** Returns [(added, deleted, updated)]. *)
Definition UpdateNeighborConfig (curC newC : BgpConfigSet)
    : option (list Neighbor * list Neighbor * list Neighbor) :=
  match rangeNewNeighbors curC (Neighbors newC) ([], []) with
  | None => None
  | Some (added, updated) =>
      let deleted := rangeCurNeighbors newC (Neighbors curC) [] in
      Some (added, deleted, updated)
  end.

(** *** CheckPolicyDifference *)

(** Sequences compared position by position. *)
Fixpoint list_Equal {A : Type} (eq : A -> A -> bool) (l r : list A) : bool :=
  match l, r with
  | [], [] => true
  | x :: l', y :: r' => eq x y && list_Equal eq l' r'
  | _, _ => false
  end.

(** Modelled from the spec: [RoutingPolicy.Equal] is not part of
    [serve.go].  The spec makes it a structural comparison of the
    DefinedSets and of the full ordered PolicyDefinition sequence. *)
Definition RoutingPolicy_Equal (lhs rhs : RoutingPolicy) : bool :=
  DefinedSets_Equal (rpDefinedSets lhs) (rpDefinedSets rhs)
  && list_Equal PolicyDefinition_Equal
       (rpPolicyDefinitions lhs) (rpPolicyDefinitions rhs).

(** A [*RoutingPolicy] is [None] when it is [nil]. *)
Definition CheckPolicyDifference
    (currentPolicy newPolicy : option RoutingPolicy) : bool :=
  match currentPolicy, newPolicy with
  | None, None => false
  | Some cur, Some new => negb (RoutingPolicy_Equal cur new)
  | _, _ => true
  end.

End Snapshot.

(** ** The diff as the specification words it

    One algorithm for both entity kinds, over an identity key: for each
    entity of the new snapshot, look it up by key in the old one; not
    found means added, found but not deep-equal means updated (the new
    value), found and deep-equal means omitted.  For each entity of the
    old snapshot, a key absent from the new one means deleted. *)
Section DiffSpec.
Variable T : Type.
Variable key : T -> string.
Variable Equal : T -> T -> bool.

Definition lookup (k : string) (b : list T) : option T :=
  find (fun o => String.eqb (key o) k) b.

Definition absent (b : list T) (n : T) : bool :=
  match lookup (key n) b with
  | None => true
  | Some _ => false
  end.

Definition changed (b : list T) (n : T) : bool :=
  match lookup (key n) b with
  | None => false
  | Some o => negb (Equal n o)
  end.

Definition diff_added (old new : list T) : list T := filter (absent old) new.
Definition diff_deleted (old new : list T) : list T := filter (absent new) old.
Definition diff_updated (old new : list T) : list T := filter (changed old) new.

(** I1 of the data model: identity keys are unique within a snapshot. *)
Definition unique_keys (b : list T) : Prop := NoDup (map key b).

End DiffSpec.

Arguments lookup {T} key k b.
Arguments absent {T} key b n.
Arguments changed {T} key Equal b n.
Arguments diff_added {T} key old new.
Arguments diff_deleted {T} key old new.
Arguments diff_updated {T} key Equal old new.
Arguments unique_keys {T} key b.


(** ** The reload loop: ReadConfigfileServe

    The set-up before the [for] (the signal channel, the viper instance,
    the watcher and its callback) is the environment of the loop: it
    shows here as the stimuli the loop receives. *)

(** Go's [int] on the 64-bit platforms the daemon is built for: [x++]
    wraps around from [2^63 - 1] to [-2^63]. *)
Definition max_int : Z := 2 ^ 63 - 1.

Definition int_wrap (x : Z) : Z := (x + 2 ^ 63) mod 2 ^ 64 - 2 ^ 63.

Definition incr (x : Z) : Z := int_wrap (x + 1).

(** Modelled from the spec: the [error] values come from the configuration
    library and from the default-population code, neither part of
    [serve.go].  The spec names three kinds of load failure; the source
    distinguishes them only through [os.IsNotExist]. *)
Inductive error : Type :=
| NotFound
| ParseError
| DefaultsError.

Definition os_IsNotExist (err : error) : bool :=
  match err with
  | NotFound => true
  | _ => false
  end.

Inductive Level : Type := FatalLevel | ErrorLevel | WarnLevel | InfoLevel.

Section ReloadLoop.
Context {schema : Schema}.

(** What the collaborators of [ReadConfigfile] answer at one load attempt:
    [v.ReadInConfig()], [v.UnmarshalExact(c)] (the filled [c], or an
    error) and [setDefaultConfigValuesWithViper(v, c)] (the completed [c],
    or an error). *)
Record Viper : Type := {
  ReadInConfig : option error;
  UnmarshalExact : BgpConfigSet + error;
  setDefaultConfigValuesWithViper : BgpConfigSet -> BgpConfigSet + error
}.

(** [(c, nil)] is [inl c], [(nil, err)] is [inr err]. *)
Definition ReadConfigfile (v : Viper) : BgpConfigSet + error :=
  match ReadInConfig v with
  | Some err => inr err
  | None =>
      match UnmarshalExact v with
      | inr err => inr err
      | inl c =>
          match setDefaultConfigValuesWithViper v c with
          | inr err => inr err
          | inl c' => inl c'
          end
      end
  end.

(** What the loop does to the outside: log entries, [time.Sleep], and the
    blocking send [configCh <- c]. *)
Inductive Event : Type :=
| Log (lvl : Level) (msg : string)
| Sleep (d : Z)
| Send (c : BgpConfigSet).

(** Where the goroutine stands between two steps: at the head of the [for]
    (about to call [ReadConfigfile]), blocked at label [NEXT] on
    [<-sigReloadConfig], or gone after [Fatalf] ended the process. *)
Inductive Label : Type := FOR | NEXT | EXIT.

Record Loop : Type := {
  cnt : Z;
  notFoundCnt : Z;
  at_ : Label
}.

(** What the outside does to the loop: it answers a load attempt, or it
    delivers a value on [sigReloadConfig] (SIGHUP, or the watcher's
    callback). *)
Inductive Stimulus : Type :=
| Load (v : Viper)
| Signal.

Definition start : Loop := {| cnt := 0; notFoundCnt := 0; at_ := FOR |}.

Variable path : string.

(** Label [ERROR]. *)
Definition ERROR (s : Loop) : Loop * list Event :=
  if cnt s =? 0 then
    ({| cnt := cnt s; notFoundCnt := notFoundCnt s; at_ := EXIT |},
     [Log FatalLevel ("Can't read config file " ++ path)%string])
  else
    ({| cnt := cnt s; notFoundCnt := notFoundCnt s; at_ := NEXT |},
     [Log WarnLevel ("Can't reload config file " ++ path)%string]).

(** One pass through the body of the [for], from the call of
    [ReadConfigfile] to [continue], to the receive at [NEXT], or to the
    exit. *)
Definition iteration (s : Loop) (v : Viper) : Loop * list Event :=
  match ReadConfigfile v with
  | inr err =>
      if os_IsNotExist err then
        let s1 := {| cnt := cnt s; notFoundCnt := incr (notFoundCnt s);
                     at_ := FOR |} in
        if notFoundCnt s1 <? 5 then
          (s1, [Log WarnLevel "config file not loaded"; Sleep 5])
        else
          let '(s2, ev) := ERROR s1 in
          (s2, [Log WarnLevel "config file not loaded";
                Log ErrorLevel "config file not loaded(max times exceed)"]
               ++ ev)
      else ERROR s
  | inl c =>
      let ev :=
        if cnt s =? 0 then [Log InfoLevel "Finished reading the config file"]
        else [] in
      ({| cnt := incr (cnt s); notFoundCnt := notFoundCnt s; at_ := NEXT |},
       ev ++ [Send c])
  end.

(** A step is enabled only for the stimulus the loop is waiting for. *)
Definition step (s : Loop) (i : Stimulus) : option (Loop * list Event) :=
  match at_ s, i with
  | FOR, Load v => Some (iteration s v)
  | NEXT, Signal =>
      Some ({| cnt := cnt s; notFoundCnt := notFoundCnt s; at_ := FOR |},
            [Log InfoLevel "Reload the config file"])
  | _, _ => None
  end.

Fixpoint run (s : Loop) (ins : list Stimulus) : option (Loop * list Event) :=
  match ins with
  | [] => Some (s, [])
  | i :: rest =>
      match step s i with
      | None => None
      | Some (s1, ev1) =>
          match run s1 rest with
          | None => None
          | Some (s2, ev2) => Some (s2, ev1 ++ ev2)
          end
      end
  end.

(** *** Observations on inputs and traces *)

(** The snapshots the consumer has received, oldest first. *)
Fixpoint published (ev : list Event) : list BgpConfigSet :=
  match ev with
  | [] => []
  | Send c :: rest => c :: published rest
  | _ :: rest => published rest
  end.

(** The current configuration: the snapshot published last. *)
Definition current (ev : list Event) : option BgpConfigSet :=
  last (map Some (published ev)) None.

Definition is_sleep (e : Event) : bool :=
  match e with
  | Sleep _ => true
  | _ => false
  end.

Definition is_log (lvl : Level) (e : Event) : bool :=
  match e, lvl with
  | Log FatalLevel _, FatalLevel => true
  | Log ErrorLevel _, ErrorLevel => true
  | Log WarnLevel _, WarnLevel => true
  | Log InfoLevel _, InfoLevel => true
  | _, _ => false
  end.

Definition slept (ev : list Event) : bool := existsb is_sleep ev.
Definition logged (lvl : Level) (ev : list Event) : bool := existsb (is_log lvl) ev.

(** A load attempt that fails with a NotFound error. *)
Definition load_not_found (v : Viper) : bool :=
  match ReadConfigfile v with
  | inr err => os_IsNotExist err
  | inl _ => false
  end.

Definition not_found (i : Stimulus) : bool :=
  match i with
  | Load v => load_not_found v
  | Signal => false
  end.

(** The NotFound failures among the stimuli. *)
Definition count_not_found (ins : list Stimulus) : Z :=
  Z.of_nat (List.length (filter not_found ins)).

(** What one failed attempt with the counter still below the ceiling
    leaves in the trace. *)
Definition retry_trace : list Event :=
  [Log WarnLevel "config file not loaded"; Sleep 5].

Fixpoint retries (k : nat) : list Event :=
  match k with
  | O => []
  | S k' => retry_trace ++ retries k'
  end.

End ReloadLoop.

(** ** The scenarios of the specification

    A small schema to run the functions on: a PeerGroup is a name and an
    AS number, a Neighbor is a peer address, a PolicyDefinition is its
    name, and deep equality compares every field. *)
Module Scenario.

Record peer_group : Type := { name : string; asn : Z }.

Record neighbor : Type := { addr : string }.

Definition peer_group_Equal (a b : peer_group) : bool :=
  String.eqb (name a) (name b) && (asn a =? asn b).

Definition neighbor_Equal (a b : neighbor) : bool :=
  String.eqb (addr a) (addr b).

Definition schema : Schema := {|
  Global := unit;
  Neighbor := neighbor;
  PeerGroup := peer_group;
  RpkiServer := unit;
  BmpServer := unit;
  Vrf := unit;
  Mrt := unit;
  Collector := unit;
  DefinedSets := Z;
  PolicyDefinition := string;
  DynamicNeighbor := unit;
  PorterConfig := unit;
  PeerGroupName := name;
  NeighborAddress := addr;
  PeerGroup_Equal := peer_group_Equal;
  Neighbor_Equal := neighbor_Equal;
  DefinedSets_Equal := Z.eqb;
  PolicyDefinition_Equal := String.eqb
|}.

Definition snapshot (pgs : list peer_group) (nbs : list neighbor)
    : @BgpConfigSet schema :=
  {| Global_ := tt : @Global schema;
     Neighbors := nbs : list (@Neighbor schema);
     PeerGroups := pgs : list (@PeerGroup schema);
     RpkiServers := @nil (@RpkiServer schema);
     BmpServers := @nil (@BmpServer schema);
     Vrfs := @nil (@Vrf schema);
     MrtDump := @nil (@Mrt schema);
     Collector_ := tt : @Collector schema;
     DefinedSets_ := 0 : @DefinedSets schema;
     PolicyDefinitions := @nil (@PolicyDefinition schema);
     DynamicNeighbors := @nil (@DynamicNeighbor schema);
     PorterConfig_ := tt : @PorterConfig schema |}.

Definition policy (ds : Z) (pds : list string) : @RoutingPolicy schema :=
  {| rpDefinedSets := ds : @DefinedSets schema;
     rpPolicyDefinitions := pds : list (@PolicyDefinition schema) |}.

Definition A1 : peer_group := {| name := "A"; asn := 65001 |}.
Definition A2 : peer_group := {| name := "A"; asn := 65002 |}.
Definition B3 : peer_group := {| name := "B"; asn := 65003 |}.

Definition N1 : neighbor := {| addr := "10.0.0.1" |}.
Definition N2 : neighbor := {| addr := "10.0.0.2" |}.

(** The file is there and loads as [c]. *)
Definition present (c : @BgpConfigSet schema) : @Viper schema :=
  {| ReadInConfig := None;
     UnmarshalExact := inl c;
     setDefaultConfigValuesWithViper := fun c' => inl c' |}.

(** The file is not there. *)
Definition missing : @Viper schema :=
  {| ReadInConfig := Some NotFound;
     UnmarshalExact := inr ParseError;
     setDefaultConfigValuesWithViper := fun c' => inl c' |}.

(** The file is there and does not parse. *)
Definition malformed : @Viper schema :=
  {| ReadInConfig := Some ParseError;
     UnmarshalExact := inr ParseError;
     setDefaultConfigValuesWithViper := fun c' => inl c' |}.

Definition c0 : @BgpConfigSet schema := snapshot [A1] [N1].

End Scenario.

(** ** Statements shared by both entity kinds *)

(** I3 of the data model, for one diff result [(a, d, u)] of [old] against
    [new]: nothing is both added and deleted; an entity of [new] whose key
    [old] holds is neither added nor deleted, and is updated exactly when
    it is not deep-equal to the entry found under its key; an entity of
    [old] whose key [new] holds is neither added nor deleted. *)
Definition shared_in_one_place {T : Type} (key : T -> string)
    (Equal : T -> T -> bool) (old new a d u : list T) : Prop :=
  (forall x, ~ (In x a /\ In x d))
  /\ (forall x o, In x new -> lookup key (key x) old = Some o ->
        ~ In x a /\ ~ In x d
        /\ (Equal x o = false -> In x u)
        /\ (Equal x o = true -> ~ In x u))
  /\ (forall o, In o old -> In (key o) (map key new) ->
        ~ In o a /\ ~ In o d).

(** ** The reload failure after a publish, as the specification words it

    A NotFound failure of a load attempt made after at least one snapshot
    was published logs a warning, keeps the current snapshot, and leaves
    the loop waiting for the next notification, without sleeping. *)
Definition reload_not_found_awaits {schema : Schema} : Prop :=
  forall (path : string) (ins : list Stimulus) (s : Loop) (ev : list Event)
         (v : Viper),
    run path start ins = Some (s, ev) ->
    published ev <> [] ->
    at_ s = FOR ->
    load_not_found v = true ->
    exists s' ev',
      step path s (Load v) = Some (s', ev')
      /\ logged WarnLevel ev' = true
      /\ current (ev ++ ev') = current ev
      /\ at_ s' = NEXT
      /\ slept ev' = false.

(** ** Further observations on the reload loop *)
Section ReloadLoopObservations.
Context {schema : Schema}.

(** The snapshots the load attempts among the stimuli produce, oldest
    first. *)
Fixpoint loaded (ins : list Stimulus) : list BgpConfigSet :=
  match ins with
  | [] => []
  | Load v :: rest =>
      match ReadConfigfile v with
      | inl c => c :: loaded rest
      | inr _ => loaded rest
      end
  | Signal :: rest => loaded rest
  end.

(** How often the loop called [time.Sleep]. *)
Definition count_sleeps (ev : list Event) : Z :=
  Z.of_nat (List.length (filter is_sleep ev)).

(** The report of the first successful load. *)
Definition is_first_load_report (e : Event) : bool :=
  match e with
  | Log InfoLevel msg => String.eqb msg "Finished reading the config file"
  | _ => false
  end.

Definition count_first_load_reports (ev : list Event) : Z :=
  Z.of_nat (List.length (filter is_first_load_report ev)).

End ReloadLoopObservations.

(** * Properties *)

Lemma index_cons {A : Type} (x : A) (l : list A) (k : Z) :
  0 < k -> index (x :: l) k = index l (k - 1).
Proof.
  intros Hk; unfold index.
  destruct (k <? 0) eqn:E1; [apply Z.ltb_lt in E1; lia|].
  destruct (k - 1 <? 0) eqn:E2; [apply Z.ltb_lt in E2; lia|].
  replace (Z.to_nat k) with (S (Z.to_nat (k - 1))) by lia.
  reflexivity.
Qed.


Section DiffSpecFacts.
Variable T : Type.
Variable key : T -> string.

Lemma lookup_In (k : string) (b : list T) (o : T) :
  lookup key k b = Some o -> In o b /\ key o = k.
Proof.
  unfold lookup; intros H.
  apply find_some in H as [Hin Hk].
  split; [exact Hin | now apply String.eqb_eq].
Qed.

Lemma lookup_None (k : string) (b : list T) :
  lookup key k b = None <-> ~ In k (map key b).
Proof.
  unfold lookup; induction b as [|x b IH]; simpl.
  - tauto.
  - destruct (String.eqb_spec (key x) k) as [E|E].
    + split; [discriminate | intros H; exfalso; apply H; now left].
    + rewrite IH; split; [intros H [F|F]; auto | intros H F; apply H; now right].
Qed.

Lemma lookup_self (b : list T) (x : T) :
  unique_keys key b -> In x b -> lookup key (key x) b = Some x.
Proof.
  unfold unique_keys, lookup; induction b as [|y b IH]; simpl; [tauto|].
  intros Hnd Hin; inversion Hnd as [|? ? Hy Hb]; subst.
  destruct Hin as [->|Hin].
  - now rewrite String.eqb_refl.
  - destruct (String.eqb_spec (key y) (key x)) as [E|E].
    + exfalso; apply Hy; rewrite E; now apply in_map.
    + now apply IH.
Qed.

Lemma absent_true (b : list T) (n : T) :
  absent key b n = true <-> ~ In (key n) (map key b).
Proof.
  unfold absent; rewrite <- lookup_None.
  destruct (lookup key (key n) b); split; congruence.
Qed.

Lemma absent_false (b : list T) (n : T) :
  absent key b n = false <-> In (key n) (map key b).
Proof.
  unfold absent; destruct (lookup key (key n) b) eqn:E.
  - split; [intros _|reflexivity].
    apply lookup_In in E as [Hin Hk]; rewrite <- Hk; now apply in_map.
  - apply lookup_None in E; split; [discriminate | tauto].
Qed.

(** An entity whose key both snapshots hold is neither added nor deleted. *)
Lemma shared_key_not_added (old new : list T) (x : T) :
  In (key x) (map key old) -> ~ In x (diff_added key old new).
Proof.
  unfold diff_added; intros Hk Hin.
  apply filter_In in Hin as [_ Ha].
  apply absent_true in Ha; tauto.
Qed.

Lemma shared_key_not_deleted (old new : list T) (x : T) :
  In (key x) (map key new) -> ~ In x (diff_deleted key old new).
Proof.
  unfold diff_deleted; intros Hk Hin.
  apply filter_In in Hin as [_ Ha].
  apply absent_true in Ha; tauto.
Qed.

Lemma diff_self_added (b : list T) : diff_added key b b = [].
Proof.
  unfold diff_added.
  assert (G : forall l, incl l b -> filter (absent key b) l = []).
  { induction l as [|x l IH]; simpl; intros Hi; [reflexivity|].
    assert (Hx : absent key b x = false)
      by (apply absent_false, in_map, Hi; now left).
    rewrite Hx; apply IH; intros y Hy; apply Hi; now right. }
  apply G, incl_refl.
Qed.

Lemma diff_self_updated (Equal : T -> T -> bool) (b : list T) :
  unique_keys key b -> (forall x, Equal x x = true) -> diff_updated key Equal b b = [].
Proof.
  intros Hu Hr; unfold diff_updated.
  assert (G : forall l, incl l b -> filter (changed key Equal b) l = []).
  { induction l as [|x l IH]; simpl; intros Hi; [reflexivity|].
    assert (Hx : changed key Equal b x = false).
    { unfold changed; rewrite (lookup_self b x Hu) by (apply Hi; now left).
      now rewrite Hr. }
    rewrite Hx; apply IH; intros y Hy; apply Hi; now right. }
  apply G, incl_refl.
Qed.

End DiffSpecFacts.

(** ** The source loops compute the specified diff *)
Section DiffCode.
Context {schema : Schema}.

(** The position [existPeerGroup] returns holds the entry [lookup] finds. *)
Lemma existPeerGroup_from_lookup (n : string) (b : list PeerGroup) :
  forall i, 0 <= i ->
    match lookup PeerGroupName n b with
    | None => existPeerGroup_from i n b = -1
    | Some o =>
        i <= existPeerGroup_from i n b
        /\ index b (existPeerGroup_from i n b - i) = Some o
    end.
Proof.
  unfold lookup; induction b as [|nb rest IH]; simpl; intros i Hi.
  - reflexivity.
  - destruct (String.eqb (PeerGroupName nb) n).
    + split; [lia|]. now rewrite Z.sub_diag.
    + specialize (IH (i + 1) ltac:(lia)).
      destruct (find _ rest); [|exact IH].
      destruct IH as [Hle Hidx]; split; [lia|].
      rewrite index_cons by lia.
      now replace (existPeerGroup_from (i + 1) n rest - i - 1)
        with (existPeerGroup_from (i + 1) n rest - (i + 1)) by lia.
Qed.

Lemma inSlice_from_lookup (n : Neighbor) (b : list Neighbor) :
  forall i, 0 <= i ->
    match lookup NeighborAddress (NeighborAddress n) b with
    | None => inSlice_from i n b = -1
    | Some o =>
        i <= inSlice_from i n b
        /\ index b (inSlice_from i n b - i) = Some o
    end.
Proof.
  unfold lookup; induction b as [|nb rest IH]; simpl; intros i Hi.
  - reflexivity.
  - destruct (String.eqb (NeighborAddress nb) (NeighborAddress n)).
    + split; [lia|]. now rewrite Z.sub_diag.
    + specialize (IH (i + 1) ltac:(lia)).
      destruct (find _ rest); [|exact IH].
      destruct IH as [Hle Hidx]; split; [lia|].
      rewrite index_cons by lia.
      now replace (inSlice_from (i + 1) n rest - i - 1)
        with (inSlice_from (i + 1) n rest - (i + 1)) by lia.
Qed.

Lemma existPeerGroup_absent (n : PeerGroup) (b : list PeerGroup) :
  (existPeerGroup (PeerGroupName n) b <? 0) = absent PeerGroupName b n.
Proof.
  unfold existPeerGroup, absent.
  pose proof (existPeerGroup_from_lookup (PeerGroupName n) b 0 (Z.le_refl 0)) as H.
  destruct (lookup PeerGroupName (PeerGroupName n) b).
  - destruct H as [H _]; apply Z.ltb_ge; exact H.
  - rewrite H; reflexivity.
Qed.

Lemma inSlice_absent (n : Neighbor) (b : list Neighbor) :
  (inSlice n b <? 0) = absent NeighborAddress b n.
Proof.
  unfold inSlice, absent.
  pose proof (inSlice_from_lookup n b 0 (Z.le_refl 0)) as H.
  destruct (lookup NeighborAddress (NeighborAddress n) b).
  - destruct H as [H _]; apply Z.ltb_ge; exact H.
  - rewrite H; reflexivity.
Qed.

Lemma existPeerGroup_index (n : PeerGroup) (b : list PeerGroup) :
  absent PeerGroupName b n = false ->
  index b (existPeerGroup (PeerGroupName n) b)
  = lookup PeerGroupName (PeerGroupName n) b.
Proof.
  unfold existPeerGroup, absent.
  pose proof (existPeerGroup_from_lookup (PeerGroupName n) b 0 (Z.le_refl 0)) as H.
  destruct (lookup PeerGroupName (PeerGroupName n) b); [|discriminate].
  destruct H as [_ H]; now rewrite Z.sub_0_r in H.
Qed.

Lemma inSlice_index (n : Neighbor) (b : list Neighbor) :
  absent NeighborAddress b n = false ->
  index b (inSlice n b) = lookup NeighborAddress (NeighborAddress n) b.
Proof.
  unfold inSlice, absent.
  pose proof (inSlice_from_lookup n b 0 (Z.le_refl 0)) as H.
  destruct (lookup NeighborAddress (NeighborAddress n) b); [|discriminate].
  destruct H as [_ H]; now rewrite Z.sub_0_r in H.
Qed.

Lemma rangeNewPeerGroups_spec (curC : BgpConfigSet) (l : list PeerGroup) :
  forall addedPg updatedPg,
    rangeNewPeerGroups curC l (addedPg, updatedPg)
    = Some (addedPg ++ diff_added PeerGroupName (PeerGroups curC) l,
            updatedPg
              ++ diff_updated PeerGroupName PeerGroup_Equal (PeerGroups curC) l).
Proof.
  unfold diff_added, diff_updated.
  induction l as [|n rest IH]; intros a u; cbn [rangeNewPeerGroups filter].
  - now rewrite !app_nil_r.
  - rewrite existPeerGroup_absent.
    destruct (absent PeerGroupName (PeerGroups curC) n) eqn:Ha.
    + assert (Hc : changed PeerGroupName PeerGroup_Equal (PeerGroups curC) n = false).
      { unfold changed; unfold absent in Ha.
        destruct (lookup PeerGroupName (PeerGroupName n) (PeerGroups curC));
          [discriminate | reflexivity]. }
      rewrite Hc, IH, <- app_assoc; reflexivity.
    + rewrite (existPeerGroup_index _ _ Ha).
      unfold changed; unfold absent in Ha.
      destruct (lookup PeerGroupName (PeerGroupName n) (PeerGroups curC)) as [o|];
        [|discriminate].
      destruct (negb (PeerGroup_Equal n o)); rewrite IH; [|reflexivity].
      rewrite <- app_assoc; reflexivity.
Qed.

Lemma rangeCurPeerGroups_spec (newC : BgpConfigSet) (l : list PeerGroup) :
  forall deletedPg,
    rangeCurPeerGroups newC l deletedPg
    = deletedPg ++ filter (absent PeerGroupName (PeerGroups newC)) l.
Proof.
  induction l as [|n rest IH]; intros d; cbn [rangeCurPeerGroups filter].
  - now rewrite app_nil_r.
  - rewrite existPeerGroup_absent.
    destruct (absent PeerGroupName (PeerGroups newC) n); rewrite IH;
      [rewrite <- app_assoc|]; reflexivity.
Qed.

Lemma rangeNewNeighbors_spec (curC : BgpConfigSet) (l : list Neighbor) :
  forall added updated,
    rangeNewNeighbors curC l (added, updated)
    = Some (added ++ diff_added NeighborAddress (Neighbors curC) l,
            updated
              ++ diff_updated NeighborAddress Neighbor_Equal (Neighbors curC) l).
Proof.
  unfold diff_added, diff_updated.
  induction l as [|n rest IH]; intros a u; cbn [rangeNewNeighbors filter].
  - now rewrite !app_nil_r.
  - rewrite inSlice_absent.
    destruct (absent NeighborAddress (Neighbors curC) n) eqn:Ha.
    + assert (Hc : changed NeighborAddress Neighbor_Equal (Neighbors curC) n = false).
      { unfold changed; unfold absent in Ha.
        destruct (lookup NeighborAddress (NeighborAddress n) (Neighbors curC));
          [discriminate | reflexivity]. }
      rewrite Hc, IH, <- app_assoc; reflexivity.
    + rewrite (inSlice_index _ _ Ha).
      unfold changed; unfold absent in Ha.
      destruct (lookup NeighborAddress (NeighborAddress n) (Neighbors curC)) as [o|];
        [|discriminate].
      destruct (negb (Neighbor_Equal n o)); rewrite IH; [|reflexivity].
      rewrite <- app_assoc; reflexivity.
Qed.

Lemma rangeCurNeighbors_spec (newC : BgpConfigSet) (l : list Neighbor) :
  forall deleted,
    rangeCurNeighbors newC l deleted
    = deleted ++ filter (absent NeighborAddress (Neighbors newC)) l.
Proof.
  induction l as [|n rest IH]; intros d; cbn [rangeCurNeighbors filter].
  - now rewrite app_nil_r.
  - rewrite inSlice_absent.
    destruct (absent NeighborAddress (Neighbors newC) n); rewrite IH;
      [rewrite <- app_assoc|]; reflexivity.
Qed.

(** Neither function panics, and each returns the specified triple. *)
Lemma UpdatePeerGroupConfig_spec (curC newC : BgpConfigSet) :
  UpdatePeerGroupConfig curC newC
  = Some (diff_added PeerGroupName (PeerGroups curC) (PeerGroups newC),
          diff_deleted PeerGroupName (PeerGroups curC) (PeerGroups newC),
          diff_updated PeerGroupName PeerGroup_Equal
            (PeerGroups curC) (PeerGroups newC)).
Proof.
  unfold UpdatePeerGroupConfig.
  rewrite rangeNewPeerGroups_spec, rangeCurPeerGroups_spec; reflexivity.
Qed.

Lemma UpdateNeighborConfig_spec (curC newC : BgpConfigSet) :
  UpdateNeighborConfig curC newC
  = Some (diff_added NeighborAddress (Neighbors curC) (Neighbors newC),
          diff_deleted NeighborAddress (Neighbors curC) (Neighbors newC),
          diff_updated NeighborAddress Neighbor_Equal
            (Neighbors curC) (Neighbors newC)).
Proof.
  unfold UpdateNeighborConfig.
  rewrite rangeNewNeighbors_spec, rangeCurNeighbors_spec; reflexivity.
Qed.

End DiffCode.

(** ** The reload loop *)

Lemma incr_small (x : Z) : 0 <= x < max_int -> incr x = x + 1.
Proof.
  unfold incr, int_wrap, max_int; intros H.
  rewrite Z.mod_small; lia.
Qed.

Section ReloadLoopFacts.
Context {schema : Schema}.
Variable path : string.

Lemma published_app (ev1 ev2 : list Event) :
  published (ev1 ++ ev2) = published ev1 ++ published ev2.
Proof.
  induction ev1 as [|e ev1 IH]; simpl; [reflexivity|].
  destruct e; simpl; now rewrite ?IH.
Qed.

(** A trace that sends nothing leaves the current snapshot in place. *)
Lemma current_app_silent (ev ev' : list Event) :
  published ev' = [] -> current (ev ++ ev') = current ev.
Proof.
  intros H; unfold current.
  now rewrite published_app, H, app_nil_r.
Qed.

Lemma run_app (ins1 ins2 : list Stimulus) :
  forall s,
    run path s (ins1 ++ ins2)
    = match run path s ins1 with
      | None => None
      | Some (s1, ev1) =>
          match run path s1 ins2 with
          | None => None
          | Some (s2, ev2) => Some (s2, ev1 ++ ev2)
          end
      end.
Proof.
  induction ins1 as [|i ins1 IH]; intros s; simpl.
  - destruct (run path s ins2) as [[s2 ev2]|]; reflexivity.
  - destruct (step path s i) as [[s1 ev1]|]; [|reflexivity].
    rewrite IH.
    destruct (run path s1 ins1) as [[s2 ev2]|]; [|reflexivity].
    destruct (run path s2 ins2) as [[s3 ev3]|]; [|reflexivity].
    now rewrite app_assoc.
Qed.

(** The four ways through the body of the [for]. *)
Lemma iteration_loaded (s : Loop) (v : Viper) (c : BgpConfigSet) :
  ReadConfigfile v = inl c ->
  iteration path s v
  = ({| cnt := incr (cnt s); notFoundCnt := notFoundCnt s; at_ := NEXT |},
     (if cnt s =? 0 then [Log InfoLevel "Finished reading the config file"]
      else []) ++ [Send c]).
Proof. unfold iteration; now intros ->. Qed.

Lemma iteration_retry (s : Loop) (v : Viper) :
  load_not_found v = true ->
  incr (notFoundCnt s) < 5 ->
  iteration path s v
  = ({| cnt := cnt s; notFoundCnt := incr (notFoundCnt s); at_ := FOR |},
     retry_trace).
Proof.
  unfold iteration, load_not_found; intros Hv Hn.
  destruct (ReadConfigfile v) as [c|err]; [discriminate|].
  rewrite Hv; cbn [notFoundCnt].
  apply Z.ltb_lt in Hn; now rewrite Hn.
Qed.

Lemma iteration_ceiling (s : Loop) (v : Viper) :
  load_not_found v = true ->
  5 <= incr (notFoundCnt s) ->
  iteration path s v
  = (if cnt s =? 0 then
       {| cnt := cnt s; notFoundCnt := incr (notFoundCnt s); at_ := EXIT |}
     else
       {| cnt := cnt s; notFoundCnt := incr (notFoundCnt s); at_ := NEXT |},
     [Log WarnLevel "config file not loaded";
      Log ErrorLevel "config file not loaded(max times exceed)";
      if cnt s =? 0 then
        Log FatalLevel ("Can't read config file " ++ path)%string
      else Log WarnLevel ("Can't reload config file " ++ path)%string]).
Proof.
  unfold iteration, load_not_found, ERROR; intros Hv Hn.
  destruct (ReadConfigfile v) as [c|err]; [discriminate|].
  rewrite Hv; cbn [notFoundCnt cnt].
  apply Z.ltb_ge in Hn; rewrite Hn.
  destruct (cnt s =? 0); reflexivity.
Qed.

Lemma iteration_other (s : Loop) (v : Viper) (err : error) :
  ReadConfigfile v = inr err ->
  os_IsNotExist err = false ->
  iteration path s v = ERROR path s.
Proof. unfold iteration; now intros -> ->. Qed.

(** One step moves each counter by what the stimulus brings. *)
Lemma step_counters (s s1 : Loop) (i : Stimulus) (ev1 : list Event) :
  step path s i = Some (s1, ev1) ->
  0 <= cnt s < max_int ->
  0 <= notFoundCnt s < max_int ->
  cnt s1 = cnt s + Z.of_nat (List.length (published ev1))
  /\ notFoundCnt s1 = notFoundCnt s + count_not_found [i]
  /\ (List.length (published ev1) <= 1)%nat.
Proof.
  unfold step, count_not_found; intros Hs Hc Hn.
  destruct (at_ s), i as [v|]; try discriminate; cbn [filter not_found].
  - injection Hs as Hs.
    destruct (ReadConfigfile v) as [c|err] eqn:Hr.
    + rewrite (iteration_loaded s v c Hr) in Hs.
      injection Hs as <- <-.
      unfold load_not_found; rewrite Hr, published_app; cbn.
      rewrite (incr_small _ Hc).
      destruct (cnt s =? 0); cbn; lia.
    + destruct (os_IsNotExist err) eqn:He.
      * assert (Hv : load_not_found v = true)
          by (unfold load_not_found; now rewrite Hr).
        rewrite Hv; cbn [List.length].
        destruct (Z_lt_le_dec (incr (notFoundCnt s)) 5) as [Hlt|Hge].
        -- rewrite (iteration_retry s v Hv Hlt) in Hs.
           injection Hs as <- <-; cbn.
           rewrite (incr_small _ Hn); lia.
        -- rewrite (iteration_ceiling s v Hv Hge) in Hs.
           injection Hs as <- <-.
           rewrite (incr_small _ Hn).
           destruct (cnt s =? 0); cbn; lia.
      * assert (Hv : load_not_found v = false)
          by (unfold load_not_found; now rewrite Hr).
        rewrite Hv, (iteration_other s v err Hr He) in *.
        unfold ERROR in Hs.
        destruct (cnt s =? 0); injection Hs as <- <-; cbn; lia.
  - injection Hs as <- <-; cbn; lia.
Qed.

Lemma count_not_found_cons (i : Stimulus) (ins : list Stimulus) :
  count_not_found (i :: ins) = count_not_found [i] + count_not_found ins.
Proof.
  unfold count_not_found; cbn [filter].
  destruct (not_found i); cbn [List.length]; lia.
Qed.

Lemma count_not_found_app (ins1 ins2 : list Stimulus) :
  count_not_found (ins1 ++ ins2) = count_not_found ins1 + count_not_found ins2.
Proof.
  unfold count_not_found.
  rewrite filter_app, length_app; lia.
Qed.

Lemma count_not_found_bounds (ins : list Stimulus) :
  0 <= count_not_found ins <= Z.of_nat (List.length ins).
Proof.
  unfold count_not_found.
  pose proof (filter_length_le not_found ins); lia.
Qed.

(** While fewer load attempts were made than an [int] can count, [cnt] is
    the number of snapshots published and [notFoundCnt] the number of
    NotFound failures. *)
Lemma run_counters (ins : list Stimulus) :
  forall (s s' : Loop) (ev : list Event),
    run path s ins = Some (s', ev) ->
    0 <= cnt s -> 0 <= notFoundCnt s ->
    cnt s + Z.of_nat (List.length ins) <= max_int ->
    notFoundCnt s + Z.of_nat (List.length ins) <= max_int ->
    cnt s' = cnt s + Z.of_nat (List.length (published ev))
    /\ notFoundCnt s' = notFoundCnt s + count_not_found ins.
Proof.
  induction ins as [|i ins IH]; intros s s' ev Hr Hc Hn Hcb Hnb.
  - injection Hr as <- <-; cbn; lia.
  - cbn [run] in Hr; cbn [List.length] in Hcb, Hnb.
    destruct (step path s i) as [[s1 ev1]|] eqn:Hs; [|discriminate].
    destruct (run path s1 ins) as [[s2 ev2]|] eqn:Hr2; [|discriminate].
    injection Hr as <- <-.
    destruct (step_counters s s1 i ev1 Hs) as (Hc1 & Hn1 & Hp1); [lia|lia|].
    pose proof (count_not_found_bounds [i]) as Hb; cbn [List.length] in Hb.
    destruct (IH s1 s2 ev2 Hr2) as (Hc2 & Hn2); try lia.
    rewrite published_app, length_app, count_not_found_cons; lia.
Qed.

Lemma step_EXIT (s s1 : Loop) (i : Stimulus) (ev1 : list Event) :
  step path s i = Some (s1, ev1) -> at_ s1 = EXIT -> cnt s1 = 0.
Proof.
  unfold step; intros Hs He.
  destruct (at_ s), i as [v|]; try discriminate.
  - injection Hs as Hs; unfold iteration, ERROR in Hs.
    destruct (ReadConfigfile v) as [c|err].
    + injection Hs as <- <-; discriminate.
    + destruct (os_IsNotExist err);
        [destruct (_ <? 5)|];
        cbn [cnt notFoundCnt] in Hs;
        try destruct (cnt s =? 0) eqn:E;
        injection Hs as <- <-; try discriminate;
        cbn [cnt]; now apply Z.eqb_eq.
  - injection Hs as <- <-; discriminate.
Qed.

Lemma run_EXIT (ins : list Stimulus) :
  forall (s s' : Loop) (ev : list Event),
    run path s ins = Some (s', ev) ->
    at_ s' = EXIT -> at_ s <> EXIT -> cnt s' = 0.
Proof.
  induction ins as [|i ins IH]; intros s s' ev Hr He Hs.
  - injection Hr as <- <-; contradiction.
  - cbn [run] in Hr.
    destruct (step path s i) as [[s1 ev1]|] eqn:Hst; [|discriminate].
    destruct (run path s1 ins) as [[s2 ev2]|] eqn:Hr2; [|discriminate].
    injection Hr as <- <-.
    destruct (at_ s1) eqn:Ha1.
    + apply (IH s1 s2 ev2 Hr2 He); congruence.
    + apply (IH s1 s2 ev2 Hr2 He); congruence.
    + destruct ins as [|j ins].
      * injection Hr2 as <- <-; now apply (step_EXIT s s1 i ev1).
      * cbn [run] in Hr2; unfold step in Hr2; rewrite Ha1 in Hr2.
        destruct j; discriminate.
Qed.

(** After a run from [start], [cnt] is zero exactly when nothing has been
    published, and a loop that has published is still running. *)
Lemma run_start (ins : list Stimulus) (s : Loop) (ev : list Event) :
  run path start ins = Some (s, ev) ->
  Z.of_nat (List.length ins) <= max_int ->
  cnt s = Z.of_nat (List.length (published ev))
  /\ notFoundCnt s = count_not_found ins
  /\ (published ev <> [] -> cnt s <> 0 /\ at_ s <> EXIT).
Proof.
  intros Hr Hb.
  destruct (run_counters ins start s ev Hr) as (Hc & Hn);
    cbn [cnt notFoundCnt start]; try lia.
  cbn [cnt notFoundCnt start] in Hc, Hn.
  split; [lia|]; split; [lia|].
  intros Hp.
  assert (Hz : cnt s <> 0).
  { rewrite Hc; destruct (published ev); [contradiction|cbn; lia]. }
  split; [exact Hz|].
  intros He; apply Hz.
  apply (run_EXIT ins start s ev Hr He); discriminate.
Qed.

End ReloadLoopFacts.

Section DiffSpecShared.
Variable T : Type.
Variable key : T -> string.
Variable Equal : T -> T -> bool.

Lemma diff_shared_in_one_place (old new : list T) :
  shared_in_one_place key Equal old new
    (diff_added key old new) (diff_deleted key old new)
    (diff_updated key Equal old new).
Proof.
  unfold shared_in_one_place; split; [|split].
  - intros x [Ha Hd].
    apply filter_In in Ha as [_ Ha]; apply absent_true in Ha.
    apply filter_In in Hd as [Hd _].
    apply Ha; now apply in_map.
  - intros x o Hin Hl.
    assert (Hk : In (key x) (map key old)).
    { apply lookup_In in Hl as [Ho <-]; now apply in_map. }
    split; [exact (shared_key_not_added T key old new x Hk)|].
    split; [exact (shared_key_not_deleted T key old new x (in_map key new x Hin))|].
    split.
    + intros HE; apply filter_In; split; [assumption|].
      unfold changed; rewrite Hl, HE; reflexivity.
    + intros HE Hu; apply filter_In in Hu as [_ Hu].
      unfold changed in Hu; rewrite Hl, HE in Hu; discriminate.
  - intros o Hin Hk; split.
    + exact (shared_key_not_added T key old new o (in_map key old o Hin)).
    + exact (shared_key_not_deleted T key old new o Hk).
Qed.

End DiffSpecShared.

(** ** The claims about the diff functions *)

(** C4: [UpdatePeerGroupConfig] returns, in this order, the PeerGroups of
    the new snapshot whose name is not found in the old one (added), the
    PeerGroups of the old snapshot whose name is not found in the new one
    (deleted), and the PeerGroups of the new snapshot whose name is found
    in the old one with a value that is not deep-equal (updated, the new
    value); name-matched deep-equal pairs yield nothing.  On old
    [{A, 65001}] and new [{A, 65002}; {B, 65003}] it returns added [B],
    deleted [], updated [A(65002)]. *)
Theorem UpdatePeerGroupConfig_diff :
  (forall (schema : Schema) (curC newC : BgpConfigSet),
      UpdatePeerGroupConfig curC newC
      = Some (diff_added PeerGroupName (PeerGroups curC) (PeerGroups newC),
              diff_deleted PeerGroupName (PeerGroups curC) (PeerGroups newC),
              diff_updated PeerGroupName PeerGroup_Equal
                (PeerGroups curC) (PeerGroups newC)))
  /\ UpdatePeerGroupConfig
       (Scenario.snapshot [Scenario.A1] [])
       (Scenario.snapshot [Scenario.A2; Scenario.B3] [])
     = Some ([Scenario.B3], [], [Scenario.A2]).
Proof.
  split.
  - intros; apply UpdatePeerGroupConfig_spec.
  - reflexivity.
Qed.

(** C5: [UpdateNeighborConfig] is the same algorithm keyed by the peer
    address: added are the Neighbors of the new snapshot whose address the
    old one lacks, updated those whose address is found with a value that
    is not deep-equal (the new value), deleted the Neighbors of the old
    snapshot whose address the new one lacks.  On old [10.0.0.1; 10.0.0.2]
    and new [10.0.0.1] it returns added [], deleted [10.0.0.2],
    updated []. *)
Theorem UpdateNeighborConfig_diff :
  (forall (schema : Schema) (curC newC : BgpConfigSet),
      UpdateNeighborConfig curC newC
      = Some (diff_added NeighborAddress (Neighbors curC) (Neighbors newC),
              diff_deleted NeighborAddress (Neighbors curC) (Neighbors newC),
              diff_updated NeighborAddress Neighbor_Equal
                (Neighbors curC) (Neighbors newC)))
  /\ UpdateNeighborConfig
       (Scenario.snapshot [] [Scenario.N1; Scenario.N2])
       (Scenario.snapshot [] [Scenario.N1])
     = Some ([], [Scenario.N2], []).
Proof.
  split.
  - intros; apply UpdateNeighborConfig_spec.
  - reflexivity.
Qed.

(** C6: both diffs of two snapshots A and B return, and the deleted
    sequence of the diff of (A, B) is the added sequence of the diff of
    (B, A), and the added sequence of the diff of (A, B) is the deleted
    sequence of the diff of (B, A). *)
Theorem UpdatePeerGroupConfig_antisymmetric :
  forall (schema : Schema) (A B : BgpConfigSet),
  exists added deleted updated updated',
    UpdatePeerGroupConfig A B = Some (added, deleted, updated)
    /\ UpdatePeerGroupConfig B A = Some (deleted, added, updated').
Proof.
  intros schema A B.
  rewrite !UpdatePeerGroupConfig_spec.
  do 4 eexists; split; reflexivity.
Qed.

(** C7: for a snapshot A whose PeerGroup names are unique (I1), with a
    deep equality that holds of every PeerGroup and itself, the PeerGroup
    diff of A against itself yields empty added, deleted and updated
    sequences. *)
Theorem UpdatePeerGroupConfig_self :
  forall (schema : Schema) (A : BgpConfigSet),
    unique_keys PeerGroupName (PeerGroups A) ->
    (forall x : PeerGroup, PeerGroup_Equal x x = true) ->
    UpdatePeerGroupConfig A A = Some ([], [], []).
Proof.
  intros schema A Hu Hr.
  rewrite UpdatePeerGroupConfig_spec.
  unfold diff_deleted.
  pose proof (diff_self_added PeerGroup PeerGroupName (PeerGroups A)) as Ha.
  unfold diff_added in Ha |- *; rewrite Ha.
  now rewrite (diff_self_updated _ _ _ _ Hu Hr).
Qed.

Lemma peer_group_Equal_refl (x : Scenario.peer_group) :
  Scenario.peer_group_Equal x x = true.
Proof.
  unfold Scenario.peer_group_Equal.
  now rewrite String.eqb_refl, Z.eqb_refl.
Qed.

Lemma UpdatePeerGroupConfig_self_witness :
  UpdatePeerGroupConfig
    (Scenario.snapshot [Scenario.A1; Scenario.B3] [])
    (Scenario.snapshot [Scenario.A1; Scenario.B3] [])
  = Some ([], [], []).
Proof.
  apply (UpdatePeerGroupConfig_self Scenario.schema
           (Scenario.snapshot [Scenario.A1; Scenario.B3] [])).
  - unfold unique_keys; simpl.
    repeat constructor; simpl; intuition discriminate.
  - exact peer_group_Equal_refl.
Defined.

(** Uniqueness of the names (I1) is what makes the self-diff empty: the
    lookup stops at the first entry of a name, so a second entry of that
    name with another value is reported as updated. *)
Remark duplicate_names_self_diff :
  UpdatePeerGroupConfig
    (Scenario.snapshot [Scenario.A1; Scenario.A2] [])
    (Scenario.snapshot [Scenario.A1; Scenario.A2] [])
  = Some ([], [], [Scenario.A2]).
Proof. reflexivity. Qed.

Lemma list_Equal_eq {A : Type} (eq : A -> A -> bool) :
  (forall a b, eq a b = true <-> a = b) ->
  forall l r, list_Equal eq l r = true <-> l = r.
Proof.
  intros Heq; induction l as [|x l IH]; destruct r as [|y r]; simpl;
    try (split; [discriminate | intros H; inversion H]); [tauto|].
  rewrite andb_true_iff, Heq, IH.
  split; [intros [-> ->]; reflexivity | intros H; inversion H; auto].
Qed.

Lemma RoutingPolicy_Equal_eq {schema : Schema} :
  (forall a b : DefinedSets, DefinedSets_Equal a b = true <-> a = b) ->
  (forall a b : PolicyDefinition, PolicyDefinition_Equal a b = true <-> a = b) ->
  forall P P' : RoutingPolicy,
    RoutingPolicy_Equal P P' = true
    <-> rpDefinedSets P = rpDefinedSets P'
        /\ rpPolicyDefinitions P = rpPolicyDefinitions P'.
Proof.
  intros Hd Hp P P'; unfold RoutingPolicy_Equal.
  now rewrite andb_true_iff, Hd, (list_Equal_eq _ Hp).
Qed.

(** C8: [CheckPolicyDifference] returns false when both policies are nil,
    true when exactly one is nil, and, when both are present, true exactly
    when they are not deep-equal; with component equalities that decide
    identity, it returns false exactly when the two policies have the same
    DefinedSets and the same ordered PolicyDefinition sequence. *)
Theorem CheckPolicyDifference_cases :
  forall (schema : Schema),
    (forall a b : DefinedSets, DefinedSets_Equal a b = true <-> a = b) ->
    (forall a b : PolicyDefinition, PolicyDefinition_Equal a b = true <-> a = b) ->
    CheckPolicyDifference None None = false
    /\ (forall P : RoutingPolicy,
          CheckPolicyDifference None (Some P) = true
          /\ CheckPolicyDifference (Some P) None = true)
    /\ (forall P P' : RoutingPolicy,
          (CheckPolicyDifference (Some P) (Some P') = true
           <-> RoutingPolicy_Equal P P' = false)
          /\ (CheckPolicyDifference (Some P) (Some P') = false
              <-> rpDefinedSets P = rpDefinedSets P'
                  /\ rpPolicyDefinitions P = rpPolicyDefinitions P')).
Proof.
  intros schema Hd Hp; split; [reflexivity|]; split; [now split|].
  intros P P'; cbn [CheckPolicyDifference]; split.
  - apply negb_true_iff.
  - now rewrite negb_false_iff, (RoutingPolicy_Equal_eq Hd Hp).
Qed.

Lemma CheckPolicyDifference_cases_witness :
  @CheckPolicyDifference Scenario.schema None None = false
  /\ (forall P : @RoutingPolicy Scenario.schema,
        CheckPolicyDifference None (Some P) = true
        /\ CheckPolicyDifference (Some P) None = true)
  /\ (forall P P' : @RoutingPolicy Scenario.schema,
        (CheckPolicyDifference (Some P) (Some P') = true
         <-> RoutingPolicy_Equal P P' = false)
        /\ (CheckPolicyDifference (Some P) (Some P') = false
            <-> rpDefinedSets P = rpDefinedSets P'
                /\ rpPolicyDefinitions P = rpPolicyDefinitions P')).
Proof.
  apply (CheckPolicyDifference_cases Scenario.schema).
  - exact Z.eqb_eq.
  - exact String.eqb_eq.
Defined.

(** The order of the PolicyDefinition sequence counts. *)
Remark CheckPolicyDifference_order :
  CheckPolicyDifference
    (Some (Scenario.policy 0 ["p"%string; "q"%string]))
    (Some (Scenario.policy 0 ["q"%string; "p"%string]))
  = true.
Proof. reflexivity. Qed.

(** C9: in one diff of an old against a new snapshot, of PeerGroups as of
    Neighbors, no entity is both added and deleted; an entity of the new
    snapshot whose key the old one holds is neither added nor deleted, is
    updated when it is not deep-equal to the old entry, and is in no
    sequence when it is deep-equal; an entity of the old snapshot whose key
    the new one holds is neither added nor deleted. *)
Theorem shared_entities_in_one_place :
  forall (schema : Schema) (curC newC : BgpConfigSet),
    (exists added deleted updated,
        UpdatePeerGroupConfig curC newC = Some (added, deleted, updated)
        /\ shared_in_one_place PeerGroupName PeerGroup_Equal
             (PeerGroups curC) (PeerGroups newC) added deleted updated)
    /\ (exists added deleted updated,
          UpdateNeighborConfig curC newC = Some (added, deleted, updated)
          /\ shared_in_one_place NeighborAddress Neighbor_Equal
               (Neighbors curC) (Neighbors newC) added deleted updated).
Proof.
  intros schema curC newC; split.
  - rewrite UpdatePeerGroupConfig_spec; do 3 eexists; split; [reflexivity|].
    apply diff_shared_in_one_place.
  - rewrite UpdateNeighborConfig_spec; do 3 eexists; split; [reflexivity|].
    apply diff_shared_in_one_place.
Qed.

(** ** The claims about the reload loop *)

Section FirstLoad.
Context {schema : Schema}.
Variable path : string.

(** Failed attempts below the ceiling, before anything was published: the
    loop sleeps after each and stands again at the head of the [for]. *)
Lemma run_retries (vs : list Viper) :
  Forall (fun v => load_not_found v = true) vs ->
  forall j : Z,
    0 <= j -> j + Z.of_nat (List.length vs) < 5 ->
    run path {| cnt := 0; notFoundCnt := j; at_ := FOR |} (map Load vs)
    = Some ({| cnt := 0; notFoundCnt := j + Z.of_nat (List.length vs);
               at_ := FOR |},
            retries (List.length vs)).
Proof.
  induction 1 as [|v vs Hv _ IH]; intros j Hj Hb.
  - cbn; now rewrite Z.add_0_r.
  - cbn [List.length] in Hb.
    assert (Hi : incr j = j + 1) by (apply incr_small; unfold max_int; lia).
    cbn [map run step at_].
    rewrite (iteration_retry path _ v Hv) by (cbn [notFoundCnt]; lia).
    cbn [cnt notFoundCnt]; rewrite Hi, IH by lia.
    cbn [List.length retries].
    do 3 f_equal; lia.
Qed.

End FirstLoad.

(** C2: before any snapshot is published, each NotFound failure increments
    the not-found counter, and while fewer than five have occurred the
    loop sleeps the fixed delay and loads again; when the file loads after
    fewer than five failures the snapshot is published and the loop awaits
    the next notification; the fifth failure in a row, with nothing
    published, ends the process with the fatal report naming the file. *)
Theorem first_load_retries :
  forall (schema : Schema) (path : string) (vs : list Viper),
    Forall (fun v => load_not_found v = true) vs ->
    ((List.length vs < 5)%nat ->
       run path start (map Load vs)
       = Some ({| cnt := 0; notFoundCnt := Z.of_nat (List.length vs);
                  at_ := FOR |},
               retries (List.length vs)))
    /\ (forall (v : Viper) (c : BgpConfigSet),
          (List.length vs < 5)%nat ->
          ReadConfigfile v = inl c ->
          run path start (map Load vs ++ [Load v])
          = Some ({| cnt := 1; notFoundCnt := Z.of_nat (List.length vs);
                     at_ := NEXT |},
                  retries (List.length vs)
                  ++ [Log InfoLevel "Finished reading the config file";
                      Send c]))
    /\ (List.length vs = 5%nat ->
          run path start (map Load vs)
          = Some ({| cnt := 0; notFoundCnt := 5; at_ := EXIT |},
                  retries 4
                  ++ [Log WarnLevel "config file not loaded";
                      Log ErrorLevel "config file not loaded(max times exceed)";
                      Log FatalLevel ("Can't read config file " ++ path)%string])).
Proof.
  intros schema path vs Hvs.
  assert (Hlt : (List.length vs < 5)%nat ->
                run path start (map Load vs)
                = Some ({| cnt := 0; notFoundCnt := Z.of_nat (List.length vs);
                           at_ := FOR |},
                        retries (List.length vs))).
  { intros Hk; unfold start.
    rewrite (run_retries path vs Hvs 0) by lia.
    reflexivity. }
  split; [exact Hlt|]; split.
  - intros v c Hk Hc.
    rewrite run_app, (Hlt Hk).
    cbn [run step at_].
    rewrite (iteration_loaded path _ v c Hc); cbn.
    reflexivity.
  - intros Hk.
    destruct (exists_last (l := vs)) as (vs' & v & ->);
      [intros ->; discriminate|].
    rewrite length_app in Hk; cbn [List.length] in Hk.
    apply Forall_app in Hvs as [Hvs' Hv].
    inversion Hv as [|? ? Hv' _]; subst.
    rewrite map_app, run_app; unfold start.
    rewrite (run_retries path vs' Hvs' 0) by lia.
    replace (List.length vs') with 4%nat by lia.
    cbn [map run step at_].
    rewrite (iteration_ceiling path _ v Hv') by (cbn; lia).
    cbn; reflexivity.
Qed.

Lemma first_load_retries_witness :
  run "/etc/porter.toml" start
    (map Load [Scenario.missing; Scenario.missing; Scenario.missing]
     ++ [Load (Scenario.present Scenario.c0)])
  = Some ({| cnt := 1; notFoundCnt := 3; at_ := NEXT |},
          retries 3
          ++ [Log InfoLevel "Finished reading the config file";
              Send Scenario.c0])
  /\ run "/etc/porter.toml" start
       (map Load [Scenario.missing; Scenario.missing; Scenario.missing;
                  Scenario.missing; Scenario.missing])
     = Some ({| cnt := 0; notFoundCnt := 5; at_ := EXIT |},
             retries 4
             ++ [Log WarnLevel "config file not loaded";
                 Log ErrorLevel "config file not loaded(max times exceed)";
                 Log FatalLevel "Can't read config file /etc/porter.toml"]).
Proof.
  split.
  - refine (proj1 (proj2 (first_load_retries Scenario.schema "/etc/porter.toml"
              [Scenario.missing; Scenario.missing; Scenario.missing] _))
              (Scenario.present Scenario.c0) Scenario.c0 _ _).
    + repeat constructor.
    + simpl; lia.
    + reflexivity.
  - refine (proj2 (proj2 (first_load_retries Scenario.schema "/etc/porter.toml"
              [Scenario.missing; Scenario.missing; Scenario.missing;
               Scenario.missing; Scenario.missing] _)) _).
    + repeat constructor.
    + reflexivity.
Defined.

Section Reloads.
Context {schema : Schema}.
Variable path : string.

(** A failed load attempt made with [cnt] other than zero: a warning, no
    send, no exit. *)
Lemma step_failure_after_publish (s : Loop) (v : Viper) (err : error) :
  at_ s = FOR ->
  cnt s <> 0 ->
  ReadConfigfile v = inr err ->
  exists s' ev',
    step path s (Load v) = Some (s', ev')
    /\ logged WarnLevel ev' = true
    /\ logged FatalLevel ev' = false
    /\ published ev' = []
    /\ at_ s' <> EXIT.
Proof.
  intros Ha Hc Hr; unfold step; rewrite Ha.
  apply Z.eqb_neq in Hc.
  destruct (os_IsNotExist err) eqn:He.
  - assert (Hv : load_not_found v = true)
      by (unfold load_not_found; now rewrite Hr).
    destruct (Z_lt_le_dec (incr (notFoundCnt s)) 5) as [Hlt|Hge].
    + rewrite (iteration_retry path s v Hv Hlt).
      do 2 eexists; split; [reflexivity|].
      repeat split; cbn; discriminate.
    + rewrite (iteration_ceiling path s v Hv Hge), Hc.
      do 2 eexists; split; [reflexivity|].
      repeat split; cbn; discriminate.
  - rewrite (iteration_other path s v err Hr He); unfold ERROR; rewrite Hc.
    do 2 eexists; split; [reflexivity|].
    repeat split; cbn; discriminate.
Qed.

End Reloads.

(** C3: once a snapshot has been published (and while fewer load attempts
    were made than an [int] counts), the loop has not exited, and a load
    attempt that fails with any error logs a warning, sends nothing on the
    consumer channel, leaves the snapshot published last as the current
    one, logs nothing fatal and does not end the process. *)
Theorem reload_failure_is_a_warning :
  forall (schema : Schema) (path : string) (ins : list Stimulus)
         (s : Loop) (ev : list Event),
    run path start ins = Some (s, ev) ->
    Z.of_nat (List.length ins) <= max_int ->
    published ev <> [] ->
    at_ s <> EXIT
    /\ forall (v : Viper) (err : error),
         at_ s = FOR ->
         ReadConfigfile v = inr err ->
         exists s' ev',
           step path s (Load v) = Some (s', ev')
           /\ logged WarnLevel ev' = true
           /\ published ev' = []
           /\ current (ev ++ ev') = current ev
           /\ logged FatalLevel ev' = false
           /\ at_ s' <> EXIT.
Proof.
  intros schema path ins s ev Hr Hb Hp.
  destruct (run_start path ins s ev Hr Hb) as (_ & _ & H).
  destruct (H Hp) as [Hc He]; split; [exact He|].
  intros v err Ha Hv.
  destruct (step_failure_after_publish path s v err Ha Hc Hv)
    as (s' & ev' & Hs & Hw & Hf & Hn & Hx).
  exists s', ev'; repeat split; try assumption.
  now apply current_app_silent.
Qed.

Lemma reload_failure_is_a_warning_witness :
  exists s' ev',
    step "/etc/porter.toml"
      {| cnt := 1; notFoundCnt := 0; at_ := FOR |} (Load Scenario.malformed)
    = Some (s', ev')
    /\ logged WarnLevel ev' = true
    /\ published ev' = []
    /\ current ([Log InfoLevel "Finished reading the config file";
                 Send Scenario.c0; Log InfoLevel "Reload the config file"]
                ++ ev')
       = Some Scenario.c0
    /\ logged FatalLevel ev' = false
    /\ at_ s' <> EXIT.
Proof.
  refine (proj2 (reload_failure_is_a_warning Scenario.schema "/etc/porter.toml"
            [Load (Scenario.present Scenario.c0); Signal]
            {| cnt := 1; notFoundCnt := 0; at_ := FOR |}
            [Log InfoLevel "Finished reading the config file";
             Send Scenario.c0; Log InfoLevel "Reload the config file"]
            _ _ _) Scenario.malformed ParseError _ _).
  - reflexivity.
  - unfold max_int; simpl; lia.
  - discriminate.
  - reflexivity.
  - reflexivity.
Defined.

Section NotFoundCounter.
Context {schema : Schema}.
Variable path : string.

(** A NotFound failure met with four or more already counted: no sleep,
    and the way out is through label [ERROR]. *)
Lemma step_not_found_past_ceiling (s : Loop) (v : Viper) :
  at_ s = FOR ->
  4 <= notFoundCnt s < max_int ->
  load_not_found v = true ->
  exists s' ev',
    step path s (Load v) = Some (s', ev')
    /\ notFoundCnt s' = notFoundCnt s + 1
    /\ slept ev' = false
    /\ published ev' = []
    /\ (cnt s <> 0 ->
          at_ s' = NEXT /\ logged WarnLevel ev' = true
          /\ logged FatalLevel ev' = false)
    /\ (cnt s = 0 -> at_ s' = EXIT /\ logged FatalLevel ev' = true).
Proof.
  intros Ha Hn Hv; unfold step; rewrite Ha.
  assert (Hi : incr (notFoundCnt s) = notFoundCnt s + 1)
    by (apply incr_small; lia).
  rewrite (iteration_ceiling path s v Hv) by lia.
  do 2 eexists; split; [reflexivity|].
  destruct (cnt s =? 0) eqn:Hc; cbn.
  - apply Z.eqb_eq in Hc; repeat split; try assumption; try reflexivity;
      intros; congruence.
  - apply Z.eqb_neq in Hc; repeat split; try assumption; try reflexivity;
      intros; congruence.
Qed.

(** A NotFound failure met with fewer than four already counted: the loop
    sleeps and loads again, whatever [cnt] is. *)
Lemma step_not_found_below_ceiling (s : Loop) (v : Viper) :
  at_ s = FOR ->
  0 <= notFoundCnt s < 4 ->
  load_not_found v = true ->
  step path s (Load v)
  = Some ({| cnt := cnt s; notFoundCnt := notFoundCnt s + 1; at_ := FOR |},
          retry_trace).
Proof.
  intros Ha Hn Hv; unfold step; rewrite Ha.
  assert (Hi : incr (notFoundCnt s) = notFoundCnt s + 1)
    by (apply incr_small; unfold max_int; lia).
  rewrite (iteration_retry path s v Hv) by lia.
  now rewrite Hi.
Qed.

End NotFoundCounter.

(** C10: (while fewer load attempts were made than an [int] counts) the
    not-found counter is the number of NotFound failures since the loop
    started, so it never decreases along a run and a successful load and
    publish leaves it as it is; from the fifth NotFound failure on, such a
    failure is followed by no sleep and no immediate retry: after the
    "not loaded" warning and the "max times exceed" error entry the loop
    takes the error branch, which writes the "Can't reload" warning and
    waits for the next notification if a snapshot was ever published, and
    writes the fatal report and exits otherwise. *)
Theorem notFoundCnt_never_reset :
  forall (schema : Schema) (path : string) (ins : list Stimulus)
         (s : Loop) (ev : list Event),
    run path start ins = Some (s, ev) ->
    Z.of_nat (List.length ins) < max_int ->
    notFoundCnt s = count_not_found ins
    /\ (forall (ins1 ins2 : list Stimulus) (s1 : Loop) (ev1 : list Event),
          ins = ins1 ++ ins2 ->
          run path start ins1 = Some (s1, ev1) ->
          notFoundCnt s1 <= notFoundCnt s)
    /\ (forall (v : Viper) (c : BgpConfigSet),
          at_ s = FOR ->
          ReadConfigfile v = inl c ->
          exists s' ev',
            step path s (Load v) = Some (s', ev')
            /\ published ev' = [c]
            /\ notFoundCnt s' = notFoundCnt s)
    /\ (forall v : Viper,
          at_ s = FOR ->
          4 <= count_not_found ins ->
          load_not_found v = true ->
          (published ev <> [] ->
             step path s (Load v)
             = Some ({| cnt := cnt s; notFoundCnt := notFoundCnt s + 1;
                        at_ := NEXT |},
                     [Log WarnLevel "config file not loaded";
                      Log ErrorLevel "config file not loaded(max times exceed)";
                      Log WarnLevel
                        ("Can't reload config file " ++ path)%string]))
          /\ (published ev = [] ->
                step path s (Load v)
                = Some ({| cnt := 0; notFoundCnt := notFoundCnt s + 1;
                           at_ := EXIT |},
                        [Log WarnLevel "config file not loaded";
                         Log ErrorLevel
                           "config file not loaded(max times exceed)";
                         Log FatalLevel
                           ("Can't read config file " ++ path)%string]))).
Proof.
  intros schema path ins s ev Hr Hb.
  destruct (run_start path ins s ev Hr) as (Hc & Hn & Hp); [lia|].
  split; [exact Hn|]; split; [|split].
  - intros ins1 ins2 s1 ev1 -> Hr1.
    rewrite length_app in Hb.
    destruct (run_start path ins1 s1 ev1 Hr1) as (_ & Hn1 & _); [lia|].
    rewrite Hn, Hn1, count_not_found_app.
    pose proof (count_not_found_bounds ins2); lia.
  - intros v c Ha Hv; unfold step; rewrite Ha.
    rewrite (iteration_loaded path s v c Hv).
    do 2 eexists; split; [reflexivity|]; split; [|reflexivity].
    rewrite published_app; destruct (cnt s =? 0); reflexivity.
  - intros v Ha H4 Hv.
    pose proof (count_not_found_bounds ins) as Hcb.
    assert (Hi : incr (notFoundCnt s) = notFoundCnt s + 1)
      by (apply incr_small; lia).
    unfold step; rewrite Ha.
    rewrite (iteration_ceiling path s v Hv) by lia.
    rewrite Hi; split.
    + intros Hne; destruct (Hp Hne) as [Hz _].
      apply Z.eqb_neq in Hz; rewrite Hz; reflexivity.
    + intros He.
      assert (Hz : cnt s = 0) by (rewrite Hc, He; reflexivity).
      rewrite Hz; reflexivity.
Qed.

Lemma notFoundCnt_never_reset_witness :
  step "/etc/porter.toml"
    {| cnt := 1; notFoundCnt := 4; at_ := FOR |} (Load Scenario.missing)
  = Some ({| cnt := 1; notFoundCnt := 5; at_ := NEXT |},
          [Log WarnLevel "config file not loaded";
           Log ErrorLevel "config file not loaded(max times exceed)";
           Log WarnLevel "Can't reload config file /etc/porter.toml"]).
Proof.
  destruct (notFoundCnt_never_reset Scenario.schema "/etc/porter.toml"
              [Load Scenario.missing; Load Scenario.missing;
               Load (Scenario.present Scenario.c0); Signal;
               Load Scenario.malformed; Signal;
               Load Scenario.missing; Load Scenario.missing]
              {| cnt := 1; notFoundCnt := 4; at_ := FOR |} _ eq_refl)
    as (_ & _ & _ & H).
  - unfold max_int; simpl; lia.
  - destruct (H Scenario.missing) as [Hp _].
    + reflexivity.
    + unfold count_not_found; simpl; lia.
    + reflexivity.
    + apply Hp; discriminate.
Defined.

(** The bound on the number of load attempts is what keeps the counters
    from wrapping: at the largest [int] the increment goes negative, and a
    not-found counter that wrapped is below the ceiling again. *)
Remark incr_wraps : incr max_int = - 2 ^ 63.
Proof. reflexivity. Qed.

Remark notFoundCnt_wrapped_retries :
  step "/etc/porter.toml"
    {| cnt := 1; notFoundCnt := max_int; at_ := FOR |} (Load Scenario.missing)
  = Some ({| cnt := 1; notFoundCnt := - 2 ^ 63; at_ := FOR |}, retry_trace).
Proof. reflexivity. Qed.

(** C1, as stated, fails: after one publish and one notification the file
    is missing; the counter goes from 0 to 1, which is below 5, so the loop
    sleeps and stands at the head of the [for] again, about to retry,
    instead of waiting for the next notification. *)
Lemma reload_not_found_awaits_counterexample :
  run "/etc/porter.toml" start [Load (Scenario.present Scenario.c0); Signal]
  = Some ({| cnt := 1; notFoundCnt := 0; at_ := FOR |},
          [Log InfoLevel "Finished reading the config file";
           Send Scenario.c0; Log InfoLevel "Reload the config file"])
  /\ step "/etc/porter.toml"
       {| cnt := 1; notFoundCnt := 0; at_ := FOR |} (Load Scenario.missing)
     = Some ({| cnt := 1; notFoundCnt := 1; at_ := FOR |},
             [Log WarnLevel "config file not loaded"; Sleep 5])
  /\ ~ @reload_not_found_awaits Scenario.schema.
Proof.
  split; [reflexivity|]; split; [reflexivity|].
  intros H.
  destruct (H "/etc/porter.toml"%string
              [Load (Scenario.present Scenario.c0); Signal]
              {| cnt := 1; notFoundCnt := 0; at_ := FOR |}
              [Log InfoLevel "Finished reading the config file";
               Send Scenario.c0; Log InfoLevel "Reload the config file"]
              Scenario.missing eq_refl)
    as (s' & ev' & Hs & _ & _ & Ha & _);
    [discriminate | reflexivity | reflexivity |].
  injection Hs as <- <-; discriminate.
Qed.

(** C1, amended: a NotFound failure of a load attempt made after at least
    one snapshot was published (and while fewer load attempts were made
    than an [int] counts) logs a warning, logs nothing fatal and keeps the
    snapshot published last as the current one.  If fewer than four
    NotFound failures have occurred before it since the loop started, the
    loop sleeps the fixed delay and loads again without waiting for a
    notification; otherwise it waits for the next notification, without
    sleeping. *)
Theorem not_found_after_publish :
  forall (schema : Schema) (path : string) (ins : list Stimulus)
         (s : Loop) (ev : list Event) (v : Viper),
    run path start ins = Some (s, ev) ->
    Z.of_nat (List.length ins) < max_int ->
    published ev <> [] ->
    at_ s = FOR ->
    load_not_found v = true ->
    exists s' ev',
      step path s (Load v) = Some (s', ev')
      /\ logged WarnLevel ev' = true
      /\ logged FatalLevel ev' = false
      /\ current (ev ++ ev') = current ev
      /\ notFoundCnt s' = count_not_found ins + 1
      /\ (count_not_found ins < 4 -> at_ s' = FOR /\ ev' = retry_trace)
      /\ (4 <= count_not_found ins ->
            at_ s' = NEXT /\ slept ev' = false
            /\ forall v' : Viper, step path s' (Load v') = None).
Proof.
  intros schema path ins s ev v Hr Hb Hp Ha Hv.
  destruct (run_start path ins s ev Hr) as (_ & Hn & Hc); [lia|].
  destruct (Hc Hp) as [Hcnt _].
  pose proof (count_not_found_bounds ins) as Hcb.
  destruct (Z_lt_le_dec (count_not_found ins) 4) as [Hlt|Hge].
  - rewrite (step_not_found_below_ceiling path s v Ha) by (assumption || lia).
    do 2 eexists; split; [reflexivity|].
    cbn [notFoundCnt at_]; rewrite Hn.
    split; [reflexivity|]; split; [reflexivity|].
    split; [now apply current_app_silent|].
    split; [reflexivity|]; split; [now split|lia].
  - destruct (step_not_found_past_ceiling path s v Ha) as
      (s' & ev' & Hs & Hn' & Hsl & Hpub & Hw & _); [lia|exact Hv|].
    destruct (Hw Hcnt) as (Hnext & Hwarn & Hfatal).
    exists s', ev'; split; [exact Hs|]; split; [exact Hwarn|];
      split; [exact Hfatal|]; split; [now apply current_app_silent|].
    split; [lia|]; split; [lia|].
    intros _; split; [exact Hnext|]; split; [exact Hsl|].
    intros v'; unfold step; now rewrite Hnext.
Qed.

Lemma not_found_after_publish_witness :
  exists s' ev',
    step "/etc/porter.toml"
      {| cnt := 1; notFoundCnt := 0; at_ := FOR |} (Load Scenario.missing)
    = Some (s', ev')
    /\ at_ s' = FOR
    /\ ev' = retry_trace.
Proof.
  destruct (not_found_after_publish Scenario.schema "/etc/porter.toml"
              [Load (Scenario.present Scenario.c0); Signal]
              _ _ Scenario.missing eq_refl)
    as (s' & ev' & Hs & _ & _ & _ & _ & Hlt & _).
  - unfold max_int; simpl; lia.
  - discriminate.
  - reflexivity.
  - reflexivity.
  - exists s', ev'; split; [exact Hs|].
    apply Hlt; unfold count_not_found; simpl; lia.
Defined.

(** * Further properties of the diff functions *)

Section DiffSpecMore.
Variable T : Type.
Variable key : T -> string.

Lemma absent_nil (n : T) : absent key [] n = true.
Proof. reflexivity. Qed.

Lemma filter_absent_nil (l : list T) : filter (absent key []) l = l.
Proof.
  induction l as [|x l IH]; cbn [filter]; [reflexivity|].
  now rewrite absent_nil, IH.
Qed.

Lemma filter_changed_nil (Equal : T -> T -> bool) (l : list T) :
  filter (changed key Equal []) l = [].
Proof. induction l as [|x l IH]; cbn [filter]; [reflexivity | exact IH]. Qed.

Lemma keys_of_absent (b l : list T) (k : string) :
  In k (map key (filter (absent key b) l))
  <-> In k (map key l) /\ ~ In k (map key b).
Proof.
  split.
  - intros Hk; apply in_map_iff in Hk as (x & <- & Hx).
    apply filter_In in Hx as [Hin Ha].
    apply absent_true in Ha; split; [now apply in_map | exact Ha].
  - intros [Hk Hn]; apply in_map_iff in Hk as (x & <- & Hin).
    apply in_map, filter_In; split; [exact Hin | now apply absent_true].
Qed.

(** The keys of the new side are those of the old side, less the deleted
    ones, plus the added ones. *)
Lemma diff_keys (old new : list T) (k : string) :
  In k (map key new)
  <-> (In k (map key old) /\ ~ In k (map key (diff_deleted key old new)))
      \/ In k (map key (diff_added key old new)).
Proof.
  unfold diff_deleted, diff_added; rewrite !keys_of_absent.
  destruct (in_dec string_dec k (map key old)) as [Ho|Ho];
    destruct (in_dec string_dec k (map key new)) as [Hn|Hn]; tauto.
Qed.

Lemma NoDup_keys_filter (f : T -> bool) (l : list T) :
  NoDup (map key l) -> NoDup (map key (filter f l)).
Proof.
  induction l as [|x l IH]; cbn [filter map]; intros H; [constructor|].
  inversion H as [|? ? Hx Hl]; subst.
  destruct (f x); cbn [map]; [|now apply IH].
  constructor; [|now apply IH].
  intros Hin; apply Hx.
  apply in_map_iff in Hin as (y & Hy & Hin).
  apply filter_In in Hin as [Hin _].
  rewrite <- Hy; now apply in_map.
Qed.

Lemma keys_of_present (b l : list T) (k : string) :
  In k (map key (filter (fun n => negb (absent key b n)) l))
  <-> In k (map key l) /\ In k (map key b).
Proof.
  split.
  - intros Hk; apply in_map_iff in Hk as (x & <- & Hx).
    apply filter_In in Hx as [Hin Ha].
    apply negb_true_iff, absent_false in Ha; split; [now apply in_map | exact Ha].
  - intros [Hk Hn]; apply in_map_iff in Hk as (x & <- & Hin).
    apply in_map, filter_In; split; [exact Hin|].
    now apply negb_true_iff, absent_false.
Qed.

(** With unique keys on both sides, as many entries of the new side have
    their key on the old side as the other way round. *)
Lemma shared_keys_balance (old new : list T) :
  unique_keys key old -> unique_keys key new ->
  List.length (filter (fun n => negb (absent key old n)) new)
  = List.length (filter (fun n => negb (absent key new n)) old).
Proof.
  unfold unique_keys; intros Ho Hn.
  rewrite <- (length_map key (filter _ new)), <- (length_map key (filter _ old)).
  apply Permutation_length, NoDup_Permutation.
  - now apply NoDup_keys_filter.
  - now apply NoDup_keys_filter.
  - intros k; rewrite !keys_of_present; tauto.
Qed.

Lemma diff_sizes (old new : list T) :
  unique_keys key old -> unique_keys key new ->
  (List.length new + List.length (diff_deleted key old new)
   = List.length old + List.length (diff_added key old new))%nat.
Proof.
  intros Ho Hn; unfold diff_deleted, diff_added.
  pose proof (filter_length (absent key old) new) as H1.
  pose proof (filter_length (absent key new) old) as H2.
  pose proof (shared_keys_balance old new Ho Hn) as H3.
  lia.
Qed.

(** An entry the old side holds itself is not reported as updated. *)
Lemma verbatim_not_updated (Equal : T -> T -> bool) (old new : list T) (x : T) :
  unique_keys key old -> (forall y, Equal y y = true) ->
  In x old -> ~ In x (diff_updated key Equal old new).
Proof.
  intros Hu Hr Hin Hup; unfold diff_updated in Hup.
  apply filter_In in Hup as [_ Hc]; unfold changed in Hc.
  rewrite (lookup_self T key old x Hu Hin), Hr in Hc; discriminate.
Qed.

End DiffSpecMore.

(** X1: both Neighbor diffs of two snapshots A and B return, the deleted
    sequence of the diff of (A, B) is the added sequence of the diff of
    (B, A), and the added sequence of the first is the deleted sequence of
    the second. *)
Theorem UpdateNeighborConfig_antisymmetric :
  forall (schema : Schema) (A B : BgpConfigSet),
  exists added deleted updated updated',
    UpdateNeighborConfig A B = Some (added, deleted, updated)
    /\ UpdateNeighborConfig B A = Some (deleted, added, updated').
Proof.
  intros schema A B.
  rewrite !UpdateNeighborConfig_spec.
  do 4 eexists; split; reflexivity.
Qed.

(** X2: a snapshot whose Neighbor addresses are unique, diffed against
    itself with a deep equality that holds of every Neighbor and itself,
    yields empty added, deleted and updated sequences. *)
Theorem UpdateNeighborConfig_no_op :
  forall (schema : Schema) (A : BgpConfigSet),
    unique_keys NeighborAddress (Neighbors A) ->
    (forall x : Neighbor, Neighbor_Equal x x = true) ->
    UpdateNeighborConfig A A = Some ([], [], []).
Proof.
  intros schema A Hu Hr.
  rewrite UpdateNeighborConfig_spec.
  unfold diff_deleted.
  pose proof (diff_self_added Neighbor NeighborAddress (Neighbors A)) as Ha.
  unfold diff_added in Ha |- *; rewrite Ha.
  now rewrite (diff_self_updated _ _ _ _ Hu Hr).
Qed.

Lemma UpdateNeighborConfig_no_op_witness :
  UpdateNeighborConfig
    (Scenario.snapshot [] [Scenario.N1; Scenario.N2])
    (Scenario.snapshot [] [Scenario.N1; Scenario.N2])
  = Some ([], [], []).
Proof.
  apply (UpdateNeighborConfig_no_op Scenario.schema
           (Scenario.snapshot [] [Scenario.N1; Scenario.N2])).
  - unfold unique_keys; simpl.
    repeat constructor; simpl; intuition discriminate.
  - intros x; apply String.eqb_refl.
Defined.

(** X3: against an old snapshot without PeerGroups (Neighbors) every
    PeerGroup (Neighbor) of the new snapshot is added, in its order, and
    nothing is deleted or updated; against a new snapshot without them
    every one of the old snapshot is deleted, in its order, and nothing is
    added or updated. *)
Theorem diff_against_empty :
  forall (schema : Schema) (curC newC : BgpConfigSet),
    (PeerGroups curC = [] ->
       UpdatePeerGroupConfig curC newC = Some (PeerGroups newC, [], []))
    /\ (PeerGroups newC = [] ->
          UpdatePeerGroupConfig curC newC = Some ([], PeerGroups curC, []))
    /\ (Neighbors curC = [] ->
          UpdateNeighborConfig curC newC = Some (Neighbors newC, [], []))
    /\ (Neighbors newC = [] ->
          UpdateNeighborConfig curC newC = Some ([], Neighbors curC, [])).
Proof.
  intros schema curC newC.
  rewrite UpdatePeerGroupConfig_spec, UpdateNeighborConfig_spec.
  unfold diff_added, diff_deleted, diff_updated.
  repeat split; intros ->; cbn [filter];
    now rewrite ?filter_absent_nil, ?filter_changed_nil.
Qed.

Lemma diff_against_empty_witness :
  UpdatePeerGroupConfig
    (Scenario.snapshot [] [])
    (Scenario.snapshot [Scenario.A1; Scenario.B3] [])
  = Some ([Scenario.A1; Scenario.B3], [], [])
  /\ UpdateNeighborConfig
       (Scenario.snapshot [] [Scenario.N1; Scenario.N2])
       (Scenario.snapshot [] [])
     = Some ([], [Scenario.N1; Scenario.N2], []).
Proof.
  split.
  - exact (proj1 (diff_against_empty Scenario.schema
                    (Scenario.snapshot [] [])
                    (Scenario.snapshot [Scenario.A1; Scenario.B3] []))
                 eq_refl).
  - exact (proj2 (proj2 (proj2 (diff_against_empty Scenario.schema
                    (Scenario.snapshot [] [Scenario.N1; Scenario.N2])
                    (Scenario.snapshot [] []))))
                 eq_refl).
Defined.

(** X4: no key is lost or invented: a name (address) is in the new
    snapshot exactly when it is in the old snapshot and not among the
    deleted entries, or among the added entries. *)
Theorem diff_rebuilds_keys :
  forall (schema : Schema) (curC newC : BgpConfigSet),
    (exists added deleted updated,
        UpdatePeerGroupConfig curC newC = Some (added, deleted, updated)
        /\ forall k : string,
             In k (map PeerGroupName (PeerGroups newC))
             <-> (In k (map PeerGroupName (PeerGroups curC))
                  /\ ~ In k (map PeerGroupName deleted))
                 \/ In k (map PeerGroupName added))
    /\ (exists added deleted updated,
          UpdateNeighborConfig curC newC = Some (added, deleted, updated)
          /\ forall k : string,
               In k (map NeighborAddress (Neighbors newC))
               <-> (In k (map NeighborAddress (Neighbors curC))
                    /\ ~ In k (map NeighborAddress deleted))
                   \/ In k (map NeighborAddress added)).
Proof.
  intros schema curC newC; split.
  - rewrite UpdatePeerGroupConfig_spec; do 3 eexists; split; [reflexivity|].
    apply diff_keys.
  - rewrite UpdateNeighborConfig_spec; do 3 eexists; split; [reflexivity|].
    apply diff_keys.
Qed.

(** X5: between two snapshots with unique PeerGroup names, the sizes
    balance: the new PeerGroups plus the deleted ones are as many as the
    old PeerGroups plus the added ones. *)
Theorem UpdatePeerGroupConfig_sizes :
  forall (schema : Schema) (curC newC : BgpConfigSet),
    unique_keys PeerGroupName (PeerGroups curC) ->
    unique_keys PeerGroupName (PeerGroups newC) ->
    exists added deleted updated,
      UpdatePeerGroupConfig curC newC = Some (added, deleted, updated)
      /\ (List.length (PeerGroups newC) + List.length deleted
          = List.length (PeerGroups curC) + List.length added)%nat.
Proof.
  intros schema curC newC Hc Hn.
  rewrite UpdatePeerGroupConfig_spec; do 3 eexists; split; [reflexivity|].
  now apply diff_sizes.
Qed.

Lemma UpdatePeerGroupConfig_sizes_witness :
  exists added deleted updated,
    UpdatePeerGroupConfig
      (Scenario.snapshot [Scenario.A1] [])
      (Scenario.snapshot [Scenario.A2; Scenario.B3] [])
    = Some (added, deleted, updated)
    /\ (2 + List.length deleted = 1 + List.length added)%nat.
Proof.
  apply (UpdatePeerGroupConfig_sizes Scenario.schema
           (Scenario.snapshot [Scenario.A1] [])
           (Scenario.snapshot [Scenario.A2; Scenario.B3] []));
    unfold unique_keys; simpl; repeat constructor; simpl; intuition discriminate.
Defined.

(** X6: the same balance for Neighbors, between two snapshots with unique
    peer addresses. *)
Theorem UpdateNeighborConfig_sizes :
  forall (schema : Schema) (curC newC : BgpConfigSet),
    unique_keys NeighborAddress (Neighbors curC) ->
    unique_keys NeighborAddress (Neighbors newC) ->
    exists added deleted updated,
      UpdateNeighborConfig curC newC = Some (added, deleted, updated)
      /\ (List.length (Neighbors newC) + List.length deleted
          = List.length (Neighbors curC) + List.length added)%nat.
Proof.
  intros schema curC newC Hc Hn.
  rewrite UpdateNeighborConfig_spec; do 3 eexists; split; [reflexivity|].
  now apply diff_sizes.
Qed.

Lemma UpdateNeighborConfig_sizes_witness :
  exists added deleted updated,
    UpdateNeighborConfig
      (Scenario.snapshot [] [Scenario.N1; Scenario.N2])
      (Scenario.snapshot [] [Scenario.N1])
    = Some (added, deleted, updated)
    /\ (1 + List.length deleted = 2 + List.length added)%nat.
Proof.
  apply (UpdateNeighborConfig_sizes Scenario.schema
           (Scenario.snapshot [] [Scenario.N1; Scenario.N2])
           (Scenario.snapshot [] [Scenario.N1]));
    unfold unique_keys; simpl; repeat constructor; simpl; intuition discriminate.
Defined.

(** X7: an entry that the old snapshot holds itself, under unique names
    (addresses) there and a deep equality that holds of every entry and
    itself, is reported neither as added nor as updated, whatever else
    the new snapshot changes. *)
Theorem verbatim_entries_not_reported :
  forall (schema : Schema) (curC newC : BgpConfigSet),
    unique_keys PeerGroupName (PeerGroups curC) ->
    unique_keys NeighborAddress (Neighbors curC) ->
    (forall x : PeerGroup, PeerGroup_Equal x x = true) ->
    (forall x : Neighbor, Neighbor_Equal x x = true) ->
    (exists added deleted updated,
        UpdatePeerGroupConfig curC newC = Some (added, deleted, updated)
        /\ forall x, In x (PeerGroups curC) ->
             ~ In x added /\ ~ In x updated)
    /\ (exists added deleted updated,
          UpdateNeighborConfig curC newC = Some (added, deleted, updated)
          /\ forall x, In x (Neighbors curC) ->
               ~ In x added /\ ~ In x updated).
Proof.
  intros schema curC newC Hp Hn Hrp Hrn; split.
  - rewrite UpdatePeerGroupConfig_spec; do 3 eexists; split; [reflexivity|].
    intros x Hin; split.
    + apply shared_key_not_added; now apply in_map.
    + now apply verbatim_not_updated.
  - rewrite UpdateNeighborConfig_spec; do 3 eexists; split; [reflexivity|].
    intros x Hin; split.
    + apply shared_key_not_added; now apply in_map.
    + now apply verbatim_not_updated.
Qed.

Lemma verbatim_entries_not_reported_witness :
  exists added deleted updated,
    UpdatePeerGroupConfig
      (Scenario.snapshot [Scenario.A1; Scenario.B3] [Scenario.N1])
      (Scenario.snapshot [Scenario.A2; Scenario.B3] [Scenario.N1; Scenario.N2])
    = Some (added, deleted, updated)
    /\ forall x, In x [Scenario.A1; Scenario.B3] ->
         ~ In x added /\ ~ In x updated.
Proof.
  apply (verbatim_entries_not_reported Scenario.schema
           (Scenario.snapshot [Scenario.A1; Scenario.B3] [Scenario.N1])
           (Scenario.snapshot [Scenario.A2; Scenario.B3]
              [Scenario.N1; Scenario.N2])).
  - unfold unique_keys; simpl; repeat constructor; simpl; intuition discriminate.
  - unfold unique_keys; simpl; repeat constructor; simpl; intuition discriminate.
  - exact peer_group_Equal_refl.
  - intros x; apply String.eqb_refl.
Defined.

(** X8: with component equalities that decide identity, the routing
    policies projected out of two configurations do not differ exactly
    when the configurations have the same DefinedSets and the same ordered
    PolicyDefinition sequence; no other field of a configuration counts,
    and any change of either of the two is a difference. *)
Theorem config_policy_unchanged_iff :
  forall (schema : Schema),
    (forall a b : DefinedSets, DefinedSets_Equal a b = true <-> a = b) ->
    (forall a b : PolicyDefinition, PolicyDefinition_Equal a b = true <-> a = b) ->
    forall c c' : BgpConfigSet,
      CheckPolicyDifference
        (Some (ConfigSetToRoutingPolicy c)) (Some (ConfigSetToRoutingPolicy c'))
      = false
      <-> DefinedSets_ c = DefinedSets_ c'
          /\ PolicyDefinitions c = PolicyDefinitions c'.
Proof.
  intros schema Hd Hp c c'; cbn [CheckPolicyDifference].
  rewrite negb_false_iff, (RoutingPolicy_Equal_eq Hd Hp).
  reflexivity.
Qed.

Lemma config_policy_unchanged_iff_witness :
  CheckPolicyDifference
    (Some (ConfigSetToRoutingPolicy (Scenario.snapshot [Scenario.A1] [])))
    (Some (ConfigSetToRoutingPolicy
             (Scenario.snapshot [Scenario.A2; Scenario.B3] [Scenario.N1])))
  = false.
Proof.
  apply (config_policy_unchanged_iff Scenario.schema Z.eqb_eq String.eqb_eq
           (Scenario.snapshot [Scenario.A1] [])
           (Scenario.snapshot [Scenario.A2; Scenario.B3] [Scenario.N1])).
  split; reflexivity.
Defined.

(** * Further properties of the reload loop *)

(** [ReadConfigfile] returns a configuration exactly when reading,
    unmarshalling and default population all succeed, and it is the one
    default population completed; it returns an error exactly when that
    error is the one of the first stage that fails. *)
Lemma ReadConfigfile_stages :
  forall (schema : Schema) (v : Viper),
    (forall c : BgpConfigSet,
        ReadConfigfile v = inl c
        <-> ReadInConfig v = None
            /\ exists c0, UnmarshalExact v = inl c0
                 /\ setDefaultConfigValuesWithViper v c0 = inl c)
    /\ (forall err : error,
          ReadConfigfile v = inr err
          <-> ReadInConfig v = Some err
              \/ (ReadInConfig v = None /\ UnmarshalExact v = inr err)
              \/ (ReadInConfig v = None
                  /\ exists c0, UnmarshalExact v = inl c0
                       /\ setDefaultConfigValuesWithViper v c0 = inr err)).
Proof.
  intros schema v; unfold ReadConfigfile.
  destruct (ReadInConfig v) as [e1|].
  - split; intros x; split.
    + discriminate.
    + intros [H _]; discriminate.
    + intros H; left; congruence.
    + intros [H|[[H _]|[H _]]]; congruence.
  - destruct (UnmarshalExact v) as [c0|e2].
    + destruct (setDefaultConfigValuesWithViper v c0) as [c1|e3] eqn:Hd.
      * split; intros x; split.
        -- intros H; split; [reflexivity|]; exists c0; split; congruence.
        -- intros [_ (c' & Hu & Hs)]; congruence.
        -- discriminate.
        -- intros [H|[[_ H]|[_ (c' & Hu & Hs)]]]; congruence.
      * split; intros x; split.
        -- discriminate.
        -- intros [_ (c' & Hu & Hs)]; congruence.
        -- intros H; right; right; split; [reflexivity|].
           exists c0; split; congruence.
        -- intros [H|[[_ H]|[_ (c' & Hu & Hs)]]]; congruence.
    + split; intros x; split.
      * discriminate.
      * intros [_ (c' & Hu & _)]; discriminate.
      * intros H; right; left; split; congruence.
      * intros [H|[[_ H]|[_ (c' & Hu & _)]]]; congruence.
Qed.

Section ReloadLoopMore.
Context {schema : Schema}.
Variable path : string.

Lemma loaded_cons (i : Stimulus) (ins : list Stimulus) :
  loaded (i :: ins) = loaded [i] ++ loaded ins.
Proof.
  destruct i as [v|]; cbn [loaded]; [|reflexivity].
  destruct (ReadConfigfile v); reflexivity.
Qed.

Lemma step_published (s s1 : Loop) (i : Stimulus) (ev1 : list Event) :
  step path s i = Some (s1, ev1) -> published ev1 = loaded [i].
Proof.
  unfold step; intros Hs.
  destruct (at_ s), i as [v|]; try discriminate.
  - injection Hs as Hs; unfold iteration, ERROR in Hs; cbn [loaded].
    destruct (ReadConfigfile v) as [c|err].
    + injection Hs as _ <-.
      rewrite published_app; destruct (cnt s =? 0); reflexivity.
    + destruct (os_IsNotExist err);
        [destruct (_ <? 5)|];
        cbn [cnt notFoundCnt] in Hs;
        try destruct (cnt s =? 0);
        injection Hs as _ <-; reflexivity.
  - injection Hs as _ <-; reflexivity.
Qed.

Lemma run_published (ins : list Stimulus) :
  forall (s s' : Loop) (ev : list Event),
    run path s ins = Some (s', ev) -> published ev = loaded ins.
Proof.
  induction ins as [|i ins IH]; intros s s' ev Hr.
  - injection Hr as _ <-; reflexivity.
  - cbn [run] in Hr.
    destruct (step path s i) as [[s1 ev1]|] eqn:Hs; [|discriminate].
    destruct (run path s1 ins) as [[s2 ev2]|] eqn:Hr2; [|discriminate].
    injection Hr as _ <-.
    rewrite published_app, loaded_cons.
    now rewrite (step_published s s1 i ev1 Hs), (IH s1 s2 ev2 Hr2).
Qed.

Lemma count_sleeps_app (ev1 ev2 : list Event) :
  count_sleeps (ev1 ++ ev2) = count_sleeps ev1 + count_sleeps ev2.
Proof.
  unfold count_sleeps; rewrite filter_app, length_app; lia.
Qed.

(** A step sleeps once when it counts a NotFound failure below the
    ceiling, and not otherwise. *)
Lemma step_sleeps (s s1 : Loop) (i : Stimulus) (ev1 : list Event) :
  step path s i = Some (s1, ev1) ->
  0 <= notFoundCnt s < max_int ->
  count_sleeps ev1 = Z.min (notFoundCnt s1) 4 - Z.min (notFoundCnt s) 4.
Proof.
  unfold step; intros Hs Hn.
  destruct (at_ s), i as [v|]; try discriminate.
  - injection Hs as Hs.
    destruct (ReadConfigfile v) as [c|err] eqn:Hr.
    + rewrite (iteration_loaded path s v c Hr) in Hs.
      injection Hs as <- <-; cbn [notFoundCnt].
      unfold count_sleeps; rewrite filter_app.
      destruct (cnt s =? 0); cbn; lia.
    + destruct (os_IsNotExist err) eqn:He.
      * assert (Hv : load_not_found v = true)
          by (unfold load_not_found; now rewrite Hr).
        pose proof (incr_small _ Hn) as Hi.
        destruct (Z_lt_le_dec (incr (notFoundCnt s)) 5) as [Hlt|Hge].
        -- rewrite (iteration_retry path s v Hv Hlt) in Hs.
           injection Hs as <- <-; cbn [notFoundCnt].
           unfold count_sleeps; cbn; lia.
        -- rewrite (iteration_ceiling path s v Hv Hge) in Hs.
           injection Hs as <- <-.
           unfold count_sleeps.
           destruct (cnt s =? 0); cbn; lia.
      * rewrite (iteration_other path s v err Hr He) in Hs.
        unfold ERROR in Hs.
        destruct (cnt s =? 0); injection Hs as <- <-;
          unfold count_sleeps; cbn; lia.
  - injection Hs as <- <-; unfold count_sleeps; cbn; lia.
Qed.

Lemma run_sleeps (ins : list Stimulus) :
  forall (s s' : Loop) (ev : list Event),
    run path s ins = Some (s', ev) ->
    0 <= cnt s -> 0 <= notFoundCnt s ->
    cnt s + Z.of_nat (List.length ins) <= max_int ->
    notFoundCnt s + Z.of_nat (List.length ins) <= max_int ->
    count_sleeps ev = Z.min (notFoundCnt s') 4 - Z.min (notFoundCnt s) 4.
Proof.
  induction ins as [|i ins IH]; intros s s' ev Hr Hc Hn Hcb Hnb.
  - injection Hr as <- <-; unfold count_sleeps; cbn; lia.
  - cbn [run] in Hr; cbn [List.length] in Hcb, Hnb.
    destruct (step path s i) as [[s1 ev1]|] eqn:Hs; [|discriminate].
    destruct (run path s1 ins) as [[s2 ev2]|] eqn:Hr2; [|discriminate].
    injection Hr as <- <-.
    destruct (step_counters path s s1 i ev1 Hs) as (Hc1 & Hn1 & Hp1);
      [lia|lia|].
    pose proof (count_not_found_bounds [i]) as Hb; cbn [List.length] in Hb.
    rewrite count_sleeps_app, (step_sleeps s s1 i ev1 Hs) by lia.
    rewrite (IH s1 s2 ev2 Hr2) by lia.
    lia.
Qed.

(** What a step that ends the process, and one that does not, leave in
    the trace. *)
Lemma step_fatal (s s1 : Loop) (i : Stimulus) (ev1 : list Event) :
  step path s i = Some (s1, ev1) ->
  (at_ s1 = EXIT ->
     exists ev0,
       ev1 = ev0 ++ [Log FatalLevel ("Can't read config file " ++ path)%string]
       /\ logged FatalLevel ev0 = false)
  /\ (at_ s1 <> EXIT -> logged FatalLevel ev1 = false).
Proof.
  unfold step; intros Hs.
  destruct (at_ s), i as [v|]; try discriminate.
  - injection Hs as Hs; unfold iteration, ERROR in Hs.
    destruct (ReadConfigfile v) as [c|err].
    + injection Hs as <- <-; split; [discriminate|intros _].
      unfold logged; rewrite existsb_app.
      destruct (cnt s =? 0); reflexivity.
    + destruct (os_IsNotExist err);
        [destruct (_ <? 5)|];
        cbn [cnt notFoundCnt] in Hs;
        try destruct (cnt s =? 0);
        injection Hs as <- <-; cbn [at_];
        (split; [try discriminate | try (intros _; reflexivity)]).
      * intros _; eexists [_; _]; split; reflexivity.
      * intros H; now contradiction H.
      * intros _; exists []; split; reflexivity.
      * intros H; now contradiction H.
  - injection Hs as <- <-; split; [discriminate | reflexivity].
Qed.

Lemma run_fatal (ins : list Stimulus) :
  forall (s s' : Loop) (ev : list Event),
    run path s ins = Some (s', ev) ->
    at_ s <> EXIT ->
    (at_ s' = EXIT ->
       exists ev0,
         ev = ev0 ++ [Log FatalLevel ("Can't read config file " ++ path)%string]
         /\ logged FatalLevel ev0 = false)
    /\ (at_ s' <> EXIT -> logged FatalLevel ev = false).
Proof.
  induction ins as [|i ins IH]; intros s s' ev Hr Ha.
  - injection Hr as <- <-; split; [contradiction | reflexivity].
  - cbn [run] in Hr.
    destruct (step path s i) as [[s1 ev1]|] eqn:Hs; [|discriminate].
    destruct (run path s1 ins) as [[s2 ev2]|] eqn:Hr2; [|discriminate].
    injection Hr as <- <-.
    destruct (step_fatal s s1 i ev1 Hs) as [Hex Hnex].
    destruct (at_ s1) eqn:Ha1.
    + assert (Hl : logged FatalLevel ev1 = false) by (apply Hnex; discriminate).
      destruct (IH s1 s2 ev2 Hr2) as [H1 H2]; [congruence|].
      split.
      * intros He; destruct (H1 He) as (ev0 & -> & Hl0).
        exists (ev1 ++ ev0); split; [now rewrite app_assoc|].
        unfold logged in *; now rewrite existsb_app, Hl, Hl0.
      * intros He; unfold logged in *.
        now rewrite existsb_app, Hl, (H2 He).
    + assert (Hl : logged FatalLevel ev1 = false) by (apply Hnex; discriminate).
      destruct (IH s1 s2 ev2 Hr2) as [H1 H2]; [congruence|].
      split.
      * intros He; destruct (H1 He) as (ev0 & -> & Hl0).
        exists (ev1 ++ ev0); split; [now rewrite app_assoc|].
        unfold logged in *; now rewrite existsb_app, Hl, Hl0.
      * intros He; unfold logged in *.
        now rewrite existsb_app, Hl, (H2 He).
    + destruct ins as [|j ins].
      * injection Hr2 as <- <-; rewrite app_nil_r.
        split; [intros _; now apply Hex | intros H; now contradiction H].
      * cbn [run] in Hr2; unfold step in Hr2; rewrite Ha1 in Hr2.
        destruct j; discriminate.
Qed.

End ReloadLoopMore.

Section FirstLoadReport.
Context {schema : Schema}.
Variable path : string.

Lemma count_first_load_reports_app (ev1 ev2 : list Event) :
  count_first_load_reports (ev1 ++ ev2)
  = count_first_load_reports ev1 + count_first_load_reports ev2.
Proof.
  unfold count_first_load_reports; rewrite filter_app, length_app; lia.
Qed.

(** Only a publish made with [cnt] at zero carries the report. *)
Lemma step_first_load_report (s s1 : Loop) (i : Stimulus) (ev1 : list Event) :
  step path s i = Some (s1, ev1) ->
  count_first_load_reports ev1
  = if cnt s =? 0 then Z.of_nat (List.length (published ev1)) else 0.
Proof.
  unfold step; intros Hs.
  destruct (at_ s), i as [v|]; try discriminate.
  - injection Hs as Hs; unfold iteration, ERROR in Hs.
    destruct (ReadConfigfile v) as [c|err].
    + injection Hs as _ <-.
      destruct (cnt s =? 0); reflexivity.
    + destruct (os_IsNotExist err);
        [destruct (_ <? 5)|];
        cbn [cnt notFoundCnt] in Hs;
        destruct (cnt s =? 0);
        injection Hs as _ <-; reflexivity.
  - injection Hs as _ <-; destruct (cnt s =? 0); reflexivity.
Qed.

Lemma run_first_load_report (ins : list Stimulus) :
  forall (s s' : Loop) (ev : list Event),
    run path s ins = Some (s', ev) ->
    0 <= cnt s -> 0 <= notFoundCnt s ->
    cnt s + Z.of_nat (List.length ins) <= max_int ->
    notFoundCnt s + Z.of_nat (List.length ins) <= max_int ->
    count_first_load_reports ev
    = if cnt s =? 0 then Z.min 1 (Z.of_nat (List.length (published ev)))
      else 0.
Proof.
  induction ins as [|i ins IH]; intros s s' ev Hr Hc Hn Hcb Hnb.
  - injection Hr as <- <-; destruct (cnt s =? 0); reflexivity.
  - cbn [run] in Hr; cbn [List.length] in Hcb, Hnb.
    destruct (step path s i) as [[s1 ev1]|] eqn:Hs; [|discriminate].
    destruct (run path s1 ins) as [[s2 ev2]|] eqn:Hr2; [|discriminate].
    injection Hr as <- <-.
    destruct (step_counters path s s1 i ev1 Hs) as (Hc1 & Hn1 & Hp1);
      [lia|lia|].
    pose proof (count_not_found_bounds [i]) as Hb; cbn [List.length] in Hb.
    rewrite count_first_load_reports_app, (step_first_load_report s s1 i ev1 Hs).
    rewrite (IH s1 s2 ev2 Hr2) by lia.
    rewrite published_app, length_app.
    destruct (Z.eqb_spec (cnt s) 0); destruct (Z.eqb_spec (cnt s1) 0); lia.
Qed.

End FirstLoadReport.

(** X10: the consumer receives exactly the snapshots of the successful
    load attempts, each once and in the order of the attempts; a failed
    attempt and a notification deliver nothing. *)
Theorem published_in_load_order :
  forall (schema : Schema) (path : string) (ins : list Stimulus)
         (s : Loop) (ev : list Event),
    run path start ins = Some (s, ev) ->
    published ev = loaded ins.
Proof.
  intros schema path ins s ev Hr.
  exact (run_published path ins start s ev Hr).
Qed.

Lemma published_in_load_order_witness :
  published
    (retries 1
     ++ [Log InfoLevel "Finished reading the config file";
         Send Scenario.c0;
         Log InfoLevel "Reload the config file";
         Log WarnLevel "Can't reload config file /etc/porter.toml";
         Log InfoLevel "Reload the config file";
         Send (Scenario.snapshot [Scenario.A2] [])])
  = [Scenario.c0; Scenario.snapshot [Scenario.A2] []].
Proof.
  exact (published_in_load_order Scenario.schema "/etc/porter.toml"
           [Load Scenario.missing; Load (Scenario.present Scenario.c0);
            Signal; Load Scenario.malformed; Signal;
            Load (Scenario.present (Scenario.snapshot [Scenario.A2] []))]
           {| cnt := 2; notFoundCnt := 1; at_ := NEXT |} _ eq_refl).
Defined.

(** X11: (while fewer load attempts were made than an [int] counts) the
    loop has slept once for each of the first four NotFound failures
    since it started and never else: at most four times in its life,
    startup and reloads together. *)
Theorem sleeps_at_most_four_times :
  forall (schema : Schema) (path : string) (ins : list Stimulus)
         (s : Loop) (ev : list Event),
    run path start ins = Some (s, ev) ->
    Z.of_nat (List.length ins) <= max_int ->
    count_sleeps ev = Z.min (count_not_found ins) 4.
Proof.
  intros schema path ins s ev Hr Hb.
  destruct (run_start path ins s ev Hr Hb) as (_ & Hn & _).
  pose proof (count_not_found_bounds ins) as Hcb.
  rewrite (run_sleeps path ins start s ev Hr); cbn [cnt notFoundCnt start];
    lia.
Qed.

Lemma sleeps_at_most_four_times_witness :
  count_sleeps
    (retries 2
     ++ [Log InfoLevel "Finished reading the config file";
         Send Scenario.c0;
         Log InfoLevel "Reload the config file"]
     ++ retries 2
     ++ [Log WarnLevel "config file not loaded";
         Log ErrorLevel "config file not loaded(max times exceed)";
         Log WarnLevel "Can't reload config file /etc/porter.toml"])
  = 4.
Proof.
  refine (sleeps_at_most_four_times Scenario.schema "/etc/porter.toml"
            [Load Scenario.missing; Load Scenario.missing;
             Load (Scenario.present Scenario.c0); Signal;
             Load Scenario.missing; Load Scenario.missing;
             Load Scenario.missing]
            {| cnt := 1; notFoundCnt := 5; at_ := NEXT |} _ eq_refl _).
  unfold max_int; simpl; lia.
Defined.

(** X12: a run from the start has logged at fatal level exactly when the
    process has exited; then the fatal report naming the file is the last
    entry of the trace and the only fatal one, no stimulus is taken any
    more, and (while fewer load attempts were made than an [int] counts)
    nothing was ever published. *)
Theorem exit_only_by_fatal_report :
  forall (schema : Schema) (path : string) (ins : list Stimulus)
         (s : Loop) (ev : list Event),
    run path start ins = Some (s, ev) ->
    (logged FatalLevel ev = true <-> at_ s = EXIT)
    /\ (at_ s = EXIT ->
          (exists ev0,
              ev = ev0
                   ++ [Log FatalLevel ("Can't read config file " ++ path)%string]
              /\ logged FatalLevel ev0 = false)
          /\ (forall i : Stimulus, step path s i = None)
          /\ (Z.of_nat (List.length ins) <= max_int -> published ev = [])).
Proof.
  intros schema path ins s ev Hr.
  destruct (run_fatal path ins start s ev Hr) as [Hex Hnex]; [discriminate|].
  split.
  - split.
    + intros Hl; destruct (at_ s) eqn:Ha; try reflexivity;
        rewrite Hnex in Hl by discriminate; discriminate.
    + intros He; destruct (Hex He) as (ev0 & -> & _).
      unfold logged; rewrite existsb_app; cbn; apply orb_true_r.
  - intros He; split; [now apply Hex|]; split.
    + intros i; unfold step; rewrite He; reflexivity.
    + intros Hb.
      destruct (run_start path ins s ev Hr Hb) as (Hc & _ & _).
      assert (Hz : cnt s = 0)
        by (apply (run_EXIT path ins start s ev Hr He); discriminate).
      destruct (published ev); [reflexivity|].
      rewrite Hz in Hc; cbn [List.length] in Hc; lia.
Qed.

Lemma exit_only_by_fatal_report_witness :
  (logged FatalLevel
     (@retries Scenario.schema 1
      ++ [Log FatalLevel "Can't read config file /etc/porter.toml"])
   = true
   <-> at_ {| cnt := 0; notFoundCnt := 1; at_ := EXIT |} = EXIT).
Proof.
  exact (proj1 (exit_only_by_fatal_report Scenario.schema "/etc/porter.toml"
           [Load Scenario.missing; Load Scenario.malformed]
           {| cnt := 0; notFoundCnt := 1; at_ := EXIT |} _ eq_refl)).
Defined.

(** X13: before anything is published (and while fewer load attempts were
    made than an [int] counts), a load failure that is not a NotFound
    error ends the process at once, with the fatal report as the only
    entry and without a sleep, however few NotFound failures were counted
    so far. *)
Theorem first_load_other_error_is_fatal :
  forall (schema : Schema) (path : string) (ins : list Stimulus)
         (s : Loop) (ev : list Event) (v : Viper) (err : error),
    run path start ins = Some (s, ev) ->
    Z.of_nat (List.length ins) <= max_int ->
    published ev = [] ->
    at_ s = FOR ->
    ReadConfigfile v = inr err ->
    os_IsNotExist err = false ->
    step path s (Load v)
    = Some ({| cnt := 0; notFoundCnt := count_not_found ins; at_ := EXIT |},
            [Log FatalLevel ("Can't read config file " ++ path)%string]).
Proof.
  intros schema path ins s ev v err Hr Hb Hp Ha Hv He.
  destruct (run_start path ins s ev Hr Hb) as (Hc & Hn & _).
  rewrite Hp in Hc; cbn [List.length] in Hc.
  unfold step; rewrite Ha, (iteration_other path s v err Hv He).
  unfold ERROR; rewrite Hc, Hn; reflexivity.
Qed.

Lemma first_load_other_error_is_fatal_witness :
  step "/etc/porter.toml"
    {| cnt := 0; notFoundCnt := 2; at_ := FOR |} (Load Scenario.malformed)
  = Some ({| cnt := 0; notFoundCnt := 2; at_ := EXIT |},
          [Log FatalLevel "Can't read config file /etc/porter.toml"]).
Proof.
  refine (first_load_other_error_is_fatal Scenario.schema "/etc/porter.toml"
            [Load Scenario.missing; Load Scenario.missing]
            {| cnt := 0; notFoundCnt := 2; at_ := FOR |} _
            Scenario.malformed ParseError eq_refl _ _ _ _ _).
  - unfold max_int; simpl; lia.
  - reflexivity.
  - reflexivity.
  - reflexivity.
  - reflexivity.
Defined.

(** X14: (while fewer load attempts were made than an [int] counts)
    [cnt] is the number of snapshots published so far, and the report of
    the first successful load has been logged once if anything was
    published and never otherwise: later successful reloads do not repeat
    it. *)
Theorem first_load_reported_once :
  forall (schema : Schema) (path : string) (ins : list Stimulus)
         (s : Loop) (ev : list Event),
    run path start ins = Some (s, ev) ->
    Z.of_nat (List.length ins) <= max_int ->
    cnt s = Z.of_nat (List.length (published ev))
    /\ count_first_load_reports ev
       = Z.min 1 (Z.of_nat (List.length (published ev))).
Proof.
  intros schema path ins s ev Hr Hb.
  destruct (run_start path ins s ev Hr Hb) as (Hc & _ & _).
  split; [exact Hc|].
  rewrite (run_first_load_report path ins start s ev Hr);
    cbn [cnt notFoundCnt start]; try lia.
  reflexivity.
Qed.

Lemma first_load_reported_once_witness :
  cnt {| cnt := 2; notFoundCnt := 0; at_ := NEXT |}
  = Z.of_nat (List.length
      (published
         [Log InfoLevel "Finished reading the config file";
          Send Scenario.c0;
          Log InfoLevel "Reload the config file";
          Send Scenario.c0]))
  /\ count_first_load_reports
       [Log InfoLevel "Finished reading the config file";
        Send Scenario.c0;
        Log InfoLevel "Reload the config file";
        Send Scenario.c0]
     = Z.min 1 (Z.of_nat (List.length
         (published
            [Log InfoLevel "Finished reading the config file";
             Send Scenario.c0;
             Log InfoLevel "Reload the config file";
             Send Scenario.c0]))).
Proof.
  refine (first_load_reported_once Scenario.schema "/etc/porter.toml"
            [Load (Scenario.present Scenario.c0); Signal;
             Load (Scenario.present Scenario.c0)]
            {| cnt := 2; notFoundCnt := 0; at_ := NEXT |} _ eq_refl _).
  unfold max_int; simpl; lia.
Defined.

Section PublishedComplete.
Context {schema : Schema}.

Lemma loaded_In (ins : list Stimulus) (c : BgpConfigSet) :
  In c (loaded ins) ->
  exists v : Viper, In (Load v) ins /\ ReadConfigfile v = inl c.
Proof.
  induction ins as [|i ins IH]; cbn [loaded]; [contradiction|].
  destruct i as [v|].
  - destruct (ReadConfigfile v) as [c'|err] eqn:Hv.
    + intros [<-|Hin].
      * exists v; split; [now left | exact Hv].
      * destruct (IH Hin) as (v' & Hin' & Hv'); exists v'; split;
          [now right | exact Hv'].
    + intros Hin; destruct (IH Hin) as (v' & Hin' & Hv'); exists v'; split;
        [now right | exact Hv'].
  - intros Hin; destruct (IH Hin) as (v' & Hin' & Hv'); exists v'; split;
      [now right | exact Hv'].
Qed.

End PublishedComplete.

(** X9: every snapshot the consumer receives went through all three
    stages of one load attempt: the file was read, [UnmarshalExact]
    accepted it, and the snapshot is the one default population
    completed.  At the head of the [for], an attempt whose three stages
    succeed sends exactly that completed snapshot, and an attempt that
    fails at any stage sends nothing: neither what the earlier stages
    produced nor a snapshot sent before. *)
Theorem published_snapshots_are_complete :
  forall (schema : Schema) (path : string) (ins : list Stimulus)
         (s : Loop) (ev : list Event),
    run path start ins = Some (s, ev) ->
    (forall c : BgpConfigSet,
        In c (published ev) ->
        exists (v : Viper) (c0 : BgpConfigSet),
          In (Load v) ins
          /\ ReadInConfig v = None
          /\ UnmarshalExact v = inl c0
          /\ setDefaultConfigValuesWithViper v c0 = inl c)
    /\ (forall v : Viper,
          at_ s = FOR ->
          exists s' ev',
            step path s (Load v) = Some (s', ev')
            /\ (forall c0 c : BgpConfigSet,
                  ReadInConfig v = None ->
                  UnmarshalExact v = inl c0 ->
                  setDefaultConfigValuesWithViper v c0 = inl c ->
                  published ev' = [c]
                  /\ published (ev ++ ev') = published ev ++ [c])
            /\ (ReadInConfig v <> None
                \/ (exists e, UnmarshalExact v = inr e)
                \/ (exists c0 e,
                       UnmarshalExact v = inl c0
                       /\ setDefaultConfigValuesWithViper v c0 = inr e) ->
                published ev' = []
                /\ published (ev ++ ev') = published ev)).
Proof.
  intros schema path ins s ev Hr; split.
  - intros c Hin.
    rewrite (run_published path ins start s ev Hr) in Hin.
    destruct (loaded_In ins c Hin) as (v & Hv & Hc).
    apply (proj1 (ReadConfigfile_stages schema v)) in Hc
      as (Hri & c0 & Hu & Hd).
    exists v, c0; repeat split; assumption.
  - intros v Ha.
    destruct (step path s (Load v)) as [[s' ev']|] eqn:Hs;
      [|unfold step in Hs; rewrite Ha in Hs; discriminate].
    exists s', ev'; split; [reflexivity|].
    pose proof (step_published path s s' (Load v) ev' Hs) as Hp.
    cbn [loaded] in Hp; unfold ReadConfigfile in Hp.
    split.
    + intros c0 c Hri Hu Hd; rewrite Hri, Hu, Hd in Hp.
      split; [exact Hp | now rewrite published_app, Hp].
    + intros Hfail.
      assert (He : published ev' = []).
      { destruct (ReadInConfig v) as [e1|]; [exact Hp|].
        destruct Hfail as [Hri|[(e & Hu)|(c0 & e & Hu & Hd)]].
        - now contradiction Hri.
        - now rewrite Hu in Hp.
        - now rewrite Hu, Hd in Hp. }
      split; [exact He | now rewrite published_app, He, app_nil_r].
Qed.

Lemma published_snapshots_are_complete_witness :
  exists s' ev',
    step "/etc/porter.toml"
      {| cnt := 1; notFoundCnt := 1; at_ := FOR |} (Load Scenario.malformed)
    = Some (s', ev')
    /\ published ev' = []
    /\ published
         (retries 1
          ++ [Log InfoLevel "Finished reading the config file";
              Send Scenario.c0; Log InfoLevel "Reload the config file"]
          ++ ev')
       = [Scenario.c0].
Proof.
  destruct (proj2 (published_snapshots_are_complete Scenario.schema
              "/etc/porter.toml"
              [Load Scenario.missing; Load (Scenario.present Scenario.c0);
               Signal]
              {| cnt := 1; notFoundCnt := 1; at_ := FOR |} _ eq_refl)
              Scenario.malformed eq_refl)
    as (s' & ev' & Hs & _ & Hfail).
  exists s', ev'; split; [exact Hs|].
  destruct Hfail as [He Hall]; [left; discriminate|].
  split; [exact He | exact Hall].
Defined.
